(** * go-in-memory-database: the keyspace engine and its command handlers

    A shallow embedding of [internal/handler.go] (the command handlers over
    the three process-wide stores) and of the connection loop that
    dispatches and logs commands, followed by the properties of the
    specification that concern them.

    Conventions of the embedding.
    - Go strings are byte strings: [string] of [ascii].
    - [int] and [int64] are 64-bit two's complement: values are kept in [Z]
      and every addition and subtraction of the source is followed by
      [wrap64].
    - The three global maps are the fields of one record, [Keyspace]; a
      handler is a function from the argument list, the reading of the wall
      clock ([time.Now().Unix()]) and the keyspace to a result and a
      keyspace.  The mutexes only delimit critical sections; handlers are
      modelled as running one at a time. *)

From Stdlib Require Import ZArith Ascii String List Lia Bool.
From stdpp Require Import gmap strings list fin_maps.

Local Open Scope string_scope.
Local Open Scope Z_scope.

(** ** Value model (the struct of the wire codec, as the handlers use it) *)

#[warnings="-register-all"]
Inductive Value : Type := mkValue {
  typ : string;
  str : string;
  num : Z;
  bulk : string;
  array : list Value
}.

(** The Go zero value: every field left out of a composite literal. *)
Definition Value0 : Value := mkValue "" "" 0 "" [].

(** The composite literals that occur in the handlers. *)
Definition StringV (s : string) : Value := mkValue "string" s 0 "" [].
Definition ErrorV (s : string) : Value := mkValue "error" s 0 "" [].
Definition IntegerV (n : Z) : Value := mkValue "integer" "" n "" [].
Definition BulkV (s : string) : Value := mkValue "bulk" "" 0 s [].
Definition ArrayV (l : list Value) : Value := mkValue "array" "" 0 "" l.
Definition NullV : Value := mkValue "null" "" 0 "" [].

Definition is_error (v : Value) : Prop := typ v = "error".

(** [args[i]] after the length check that guards it. *)
Definition arg (i : nat) (args : list Value) : Value := nth i args Value0.

(** ** 64-bit integers *)

Module Int64.

Definition MinInt64 : Z := - 2 ^ 63.
Definition MaxInt64 : Z := 2 ^ 63 - 1.

Definition in_range (z : Z) : Prop := MinInt64 <= z <= MaxInt64.

(** Two's complement wrap-around of an exact result. *)
Definition wrap64 (z : Z) : Z := (z + 2 ^ 63) mod 2 ^ 64 - 2 ^ 63.

Definition add (a b : Z) : Z := wrap64 (a + b).
Definition sub (a b : Z) : Z := wrap64 (a - b).

End Int64.

(** ** strconv and strings (Go standard library, base 10 and ASCII only) *)

Module strconv.

Definition digit (c : ascii) : option Z :=
  let n := Z.of_N (N_of_ascii c) in
  if (48 <=? n) && (n <=? 57) then Some (n - 48) else None.

(** The digit loop: fails on the first byte that is not in '0'..'9'. *)
Fixpoint digits (acc : Z) (s : string) : option Z :=
  match s with
  | EmptyString => Some acc
  | String c r =>
      match digit c with
      | Some d => digits (acc * 10 + d) r
      | None => None
      end
  end.

(** [strconv.ParseInt(s, 10, 64)]: an optional sign, at least one digit,
    nothing else; [None] is a syntax or a range error. *)
Definition ParseInt (s : string) : option Z :=
  match s with
  | EmptyString => None
  | String c r =>
      let neg := Ascii.eqb c "-" in
      let body := if Ascii.eqb c "+" || Ascii.eqb c "-" then r else s in
      match body with
      | EmptyString => None
      | _ =>
          match digits 0 body with
          | None => None
          | Some un =>
              if neg then (if un <=? 2 ^ 63 then Some (- un) else None)
              else (if un <? 2 ^ 63 then Some un else None)
          end
      end
  end.

(** [strconv.Atoi] on a platform whose [int] has 64 bits. *)
Definition Atoi (s : string) : option Z := ParseInt s.

Definition digit_char (d : Z) : ascii := ascii_of_N (Z.to_N (48 + d)).

(** The digit loop of [formatBits]: least significant digit first, each
    one put in front of what is already written. *)
Fixpoint formatBits (fuel : nat) (u : Z) (acc : string) : string :=
  match fuel with
  | O => acc
  | S fuel' =>
      let acc' := String (digit_char (u mod 10)) acc in
      if u <? 10 then acc' else formatBits fuel' (u / 10) acc'
  end.

(** [strconv.Itoa]; twenty digits cover every 64-bit magnitude. *)
Definition Itoa (i : Z) : string :=
  if i <? 0 then String "-" (formatBits 20 (- i) EmptyString)
  else formatBits 20 i EmptyString.

End strconv.

Module strings.

Definition upper_byte (c : ascii) : ascii :=
  let n := N_of_ascii c in
  if ((97 <=? n) && (n <=? 122))%N then ascii_of_N (n - 32) else c.

Definition lower_byte (c : ascii) : ascii :=
  let n := N_of_ascii c in
  if ((65 <=? n) && (n <=? 90))%N then ascii_of_N (n + 32) else c.

Fixpoint map_bytes (f : ascii -> ascii) (s : string) : string :=
  match s with
  | EmptyString => EmptyString
  | String c r => String (f c) (map_bytes f r)
  end.

(** [strings.ToUpper] and [strings.ToLower] on ASCII text.  Bytes above
    127 are left as they are, where Go also maps the letters of other
    alphabets; the general statements below hold for any such mapping, as they
    only speak of the mapped name. *)
Definition ToUpper (s : string) : string := map_bytes upper_byte s.
Definition ToLower (s : string) : string := map_bytes lower_byte s.

End strings.

(** ** Keyspace: the three global maps of handler.go *)

Record Keyspace : Type := mkKeyspace {
  SETs : gmap string string;
  HSETs : gmap string (gmap string string);
  Expirations : gmap string Z
}.

Definition empty_keyspace : Keyspace := mkKeyspace ∅ ∅ ∅.

(** A handler: arguments, clock reading, keyspace in; result, keyspace out. *)
Definition Handler : Type := list Value -> Z -> Keyspace -> Value * Keyspace.

(** ** The handlers *)

Definition ping : Handler := fun args now ks =>
  if (length args =? 0)%nat then (StringV "PONG", ks)
  else (StringV (bulk (arg 0 args)), ks).

(** One pass of the loop body of [StartKeyExpiryCleaner]: every key whose
    expiry instant has passed leaves the three maps. *)
Definition sweep (now : Z) (ks : Keyspace) : Keyspace :=
  let dead := filter (fun kv => now > snd kv) (Expirations ks) in
  mkKeyspace (SETs ks ∖ ((fun _ => EmptyString) <$> dead))
             (HSETs ks ∖ ((fun _ => (∅ : gmap string string)) <$> dead))
             (Expirations ks ∖ dead).

(** The comma-ok form of a map read: the zero value and [false] when the
    key is missing. *)
Definition comma_ok {A : Type} (zero : A) (o : option A) : A * bool :=
  match o with
  | Some a => (a, true)
  | None => (zero, false)
  end.

(** [checkAndDeleteIfExpired]: the value to hand out, the flag the caller
    reads as "expired", and the keyspace after the lazy deletion. *)
Definition checkAndDeleteIfExpired (key : string) (now : Z) (ks : Keyspace)
  : string * bool * Keyspace :=
  let '(expireAt, exists_) := comma_ok 0 (Expirations ks !! key) in
  if exists_ && (now >? expireAt) then
    ("", true,
     mkKeyspace (delete key (SETs ks)) (delete key (HSETs ks))
                (delete key (Expirations ks)))
  else
    match SETs ks !! key with
    | Some value => (value, false, ks)
    | None =>
        match HSETs ks !! key with
        | Some _ => ("", false, ks)
        | None => ("", exists_, ks)
        end
    end.

Definition set : Handler := fun args now ks =>
  if (length args <? 2)%nat then
    (ErrorV "ERR wrong number of arguments for 'set' command", ks)
  else
    let key := bulk (arg 0 args) in
    let value := bulk (arg 1 args) in
    let store (expireSeconds : Z) :=
      let SETs' := <[key := value]> (SETs ks) in
      let Expirations' :=
        if expireSeconds >? 0
        then <[key := Int64.add now expireSeconds]> (Expirations ks)
        else delete key (Expirations ks) in
      (StringV "OK", mkKeyspace SETs' (HSETs ks) Expirations') in
    if (length args =? 4)%nat then
      let option := bulk (arg 2 args) in
      if negb (String.eqb (strings.ToLower option) "ex") then
        (ErrorV "ERR syntax error", ks)
      else
        match strconv.ParseInt (bulk (arg 3 args)) with
        | None => (ErrorV "ERR invalid expire time", ks)
        | Some secs =>
            if secs <=? 0 then (ErrorV "ERR invalid expire time", ks)
            else store secs
        end
    else if negb (length args =? 2)%nat then
      (ErrorV "ERR syntax error", ks)
    else store 0.

Definition get : Handler := fun args now ks =>
  if negb (length args =? 1)%nat then
    (ErrorV "ERR wrong number of arguments for 'get' command", ks)
  else
    let key := bulk (arg 0 args) in
    let '(value, expired, ks') := checkAndDeleteIfExpired key now ks in
    if expired then (NullV, ks') else (BulkV value, ks').

Definition hset : Handler := fun args now ks =>
  if negb (length args =? 3)%nat then
    (ErrorV "ERR wrong number of arguments for 'hset' command", ks)
  else
    let hash := bulk (arg 0 args) in
    let key := bulk (arg 1 args) in
    let value := bulk (arg 2 args) in
    let HSETs1 :=
      match HSETs ks !! hash with
      | Some _ => HSETs ks
      | None => <[hash := ∅]> (HSETs ks)
      end in
    let HSETs2 := alter (fun m => <[key := value]> m) hash HSETs1 in
    (StringV "OK", mkKeyspace (SETs ks) HSETs2 (Expirations ks)).

Definition hget : Handler := fun args now ks =>
  if negb (length args =? 2)%nat then
    (ErrorV "ERR wrong number of arguments for 'hget' command", ks)
  else
    let hash := bulk (arg 0 args) in
    let key := bulk (arg 1 args) in
    match HSETs ks !! hash with
    | None => (NullV, ks)
    | Some hashMap =>
        match hashMap !! key with
        | None => (NullV, ks)
        | Some value => (BulkV value, ks)
        end
    end.

(** The [range] loop of [hgetall].  Go leaves the iteration order of a map
    unspecified; the model enumerates with [map_to_list]. *)
Definition range_pairs (hashMap : gmap string string) : list Value :=
  flat_map (fun kv => [BulkV (fst kv); BulkV (snd kv)]) (map_to_list hashMap).

Definition hgetall : Handler := fun args now ks =>
  if negb (length args =? 1)%nat then
    (ErrorV "ERR wrong number of arguments for 'hgetall' command", ks)
  else
    let hash := bulk (arg 0 args) in
    match HSETs ks !! hash with
    | None => (NullV, ks)
    | Some hashMap => (ArrayV (range_pairs hashMap), ks)
    end.

Definition hdel : Handler := fun args now ks =>
  if negb (length args =? 2)%nat then
    (ErrorV "ERR wrong number of arguments for 'hdel' command", ks)
  else
    let hash := bulk (arg 0 args) in
    let key := bulk (arg 1 args) in
    let HSETs' :=
      match HSETs ks !! hash with
      | Some _ =>
          let HSETs1 := alter (fun m => delete key m) hash (HSETs ks) in
          if (size (default ∅ (HSETs1 !! hash)) =? 0)%nat
          then delete hash HSETs1
          else HSETs1
      | None => HSETs ks
      end in
    (StringV "OK", mkKeyspace (SETs ks) HSETs' (Expirations ks)).

Definition hlen : Handler := fun args now ks =>
  if negb (length args =? 1)%nat then
    (ErrorV "ERR wrong number of arguments for 'hlen' command", ks)
  else
    let hash := bulk (arg 0 args) in
    match HSETs ks !! hash with
    | None => (IntegerV 0, ks)
    | Some hashMap => (IntegerV (Z.of_nat (size hashMap)), ks)
    end.

Definition flushall : Handler := fun args now ks =>
  (StringV "OK", mkKeyspace ∅ ∅ ∅).

Definition del : Handler := fun args now ks =>
  if negb (length args =? 1)%nat then
    (ErrorV "ERR wrong number of arguments for 'del' command", ks)
  else
    let key := bulk (arg 0 args) in
    (StringV "OK",
     mkKeyspace (delete key (SETs ks)) (delete key (HSETs ks)) (Expirations ks)).

Definition LF : string := String (ascii_of_nat 10) EmptyString.

Definition info : Handler := fun args now ks =>
  if negb (length args =? 0)%nat then
    (ErrorV "ERR wrong number of arguments for 'info' command", ks)
  else
    let totalKeys := Z.of_nat (size (SETs ks)) in
    let totalHashes := Z.of_nat (size (HSETs ks)) in
    let totalFields :=
      map_fold (fun _ m acc => Int64.add acc (Z.of_nat (size m))) 0 (HSETs ks) in
    let infoStr :=
      "# Server Info" +:+ LF +:+
      "keys:" +:+ strconv.Itoa totalKeys +:+ LF +:+
      "hashes:" +:+ strconv.Itoa totalHashes +:+ LF +:+
      "fields:" +:+ strconv.Itoa totalFields +:+ LF in
    (BulkV infoStr, ks).

Definition incr : Handler := fun args now ks =>
  if negb (length args =? 1)%nat then
    (ErrorV "ERR wrong number of arguments for 'incr' command", ks)
  else
    let key := bulk (arg 0 args) in
    match SETs ks !! key with
    | None =>
        (IntegerV 1, mkKeyspace (<[key := "1"]> (SETs ks)) (HSETs ks) (Expirations ks))
    | Some value =>
        match strconv.Atoi value with
        | None => (ErrorV "ERR value is not an integer", ks)
        | Some n =>
            let n' := Int64.add n 1 in
            (IntegerV n',
             mkKeyspace (<[key := strconv.Itoa n']> (SETs ks)) (HSETs ks) (Expirations ks))
        end
    end.

Definition decr : Handler := fun args now ks =>
  if negb (length args =? 1)%nat then
    (ErrorV "ERR wrong number of arguments for 'decr' command", ks)
  else
    let key := bulk (arg 0 args) in
    match SETs ks !! key with
    | None =>
        (IntegerV 0, mkKeyspace (<[key := "0"]> (SETs ks)) (HSETs ks) (Expirations ks))
    | Some value =>
        match strconv.Atoi value with
        | None => (ErrorV "ERR value is not an integer", ks)
        | Some n =>
            let n' := Int64.sub n 1 in
            (IntegerV n',
             mkKeyspace (<[key := strconv.Itoa n']> (SETs ks)) (HSETs ks) (Expirations ks))
        end
    end.

Definition expire : Handler := fun args now ks =>
  if negb (length args =? 2)%nat then
    (ErrorV "ERR wrong number of arguments for 'expire' command", ks)
  else
    let key := bulk (arg 0 args) in
    match strconv.ParseInt (bulk (arg 1 args)) with
    | None => (ErrorV "ERR invalid expire time", ks)
    | Some seconds =>
        if seconds <=? 0 then (ErrorV "ERR invalid expire time", ks)
        else
          let existsSET := bool_decide (is_Some (SETs ks !! key)) in
          let existsHSET := bool_decide (is_Some (HSETs ks !! key)) in
          if negb existsSET && negb existsHSET then (IntegerV 0, ks)
          else
            (IntegerV 1,
             mkKeyspace (SETs ks) (HSETs ks)
                        (<[key := Int64.add now seconds]> (Expirations ks)))
    end.

Definition ttl : Handler := fun args now ks =>
  if negb (length args =? 1)%nat then
    (ErrorV "ERR wrong number of arguments for 'ttl' command", ks)
  else
    let key := bulk (arg 0 args) in
    let '(expireAt, exists_) := comma_ok 0 (Expirations ks !! key) in
    let existsSET := bool_decide (is_Some (SETs ks !! key)) in
    let existsHSET := bool_decide (is_Some (HSETs ks !! key)) in
    if negb existsSET && negb existsHSET then (IntegerV (-2), ks)
    else if negb exists_ then (IntegerV (-1), ks)
    else
      let remaining := Int64.sub expireAt now in
      if remaining <? 0 then (IntegerV (-2), ks)
      else (IntegerV remaining, ks).

Definition persist : Handler := fun args now ks =>
  if negb (length args =? 1)%nat then
    (ErrorV "ERR wrong number of arguments for 'persist' command", ks)
  else
    let key := bulk (arg 0 args) in
    let existsSET := bool_decide (is_Some (SETs ks !! key)) in
    let existsHSET := bool_decide (is_Some (HSETs ks !! key)) in
    if negb existsSET && negb existsHSET then (IntegerV 0, ks)
    else
      match Expirations ks !! key with
      | None => (IntegerV 0, ks)
      | Some _ =>
          (IntegerV 1,
           mkKeyspace (SETs ks) (HSETs ks) (delete key (Expirations ks)))
      end.

(** The routing table. *)
Definition Handlers_table : list (string * Handler) :=
  [ ("PING", ping); ("SET", set); ("GET", get); ("HSET", hset);
    ("HGET", hget); ("HGETALL", hgetall); ("HDEL", hdel); ("HLEN", hlen);
    ("FLUSHALL", flushall); ("DEL", del); ("INFO", info); ("INCR", incr);
    ("DECR", decr); ("EXPIRE", expire); ("TTL", ttl); ("PERSIST", persist) ].

Fixpoint assoc {A : Type} (k : string) (l : list (string * A)) : option A :=
  match l with
  | [] => None
  | (k', a) :: l' => if String.eqb k k' then Some a else assoc k l'
  end.

(** [Handlers[command]] in its comma-ok form. *)
Definition Handlers (command : string) : option Handler := assoc command Handlers_table.

(** ** The connection loop and the persistence log *)

(** Modelled from the spec: the append-only file behind [aof.Write] and
    [aof.Read] (aof.go) is the ordered sequence of the commands written to
    it; [Write] appends one command at the end. *)
Definition Aof : Type := list Value.

Definition aof_Write (value : Value) (log : Aof) : Aof := (log ++ [value])%list.

(** The condition that guards [aof.Write] in [handleConnection]. *)
Definition logged (command : string) : bool :=
  String.eqb command "SET" || String.eqb command "HSET" ||
  String.eqb command "DEL" || String.eqb command "FLUSHALL" ||
  String.eqb command "HDEL" || String.eqb command "INCR" ||
  String.eqb command "DECR".

(** The same guard in the single-connection loop of main.go. *)
Definition main_logged (command : string) : bool :=
  String.eqb command "SET" || String.eqb command "HSET" ||
  String.eqb command "DEL" || String.eqb command "FLUSHALL" ||
  String.eqb command "HDEL".

(** What one turn of the loop of [handleConnection] does with a decoded
    request. *)
Inductive Outcome : Type :=
  | Invalid            (* not an array, or an empty one *)
  | Unknown            (* no handler under that name *)
  | Dispatched (command : string) (appended : bool).

Record Server : Type := mkServer {
  keyspace : Keyspace;
  aof : Aof
}.

(** One turn of the [for] loop of [handleConnection]: the reply written to
    the client, the server afterwards, and what happened. *)
Definition handleConnection_step (value : Value) (now : Z) (srv : Server)
  : Value * Server * Outcome :=
  if negb (String.eqb (typ value) "array") || (length (array value) =? 0)%nat then
    (StringV "Invalid request", srv, Invalid)
  else
    let command := strings.ToUpper (bulk (arg 0 (array value))) in
    let args := tail (array value) in
    match Handlers command with
    | None => (StringV "Unknown command", srv, Unknown)
    | Some handler =>
        let aof' := if logged command then aof_Write value (aof srv) else aof srv in
        let '(result, ks') := handler args now (keyspace srv) in
        (result, mkServer ks' aof', Dispatched command (logged command))
    end.

(** The loop itself, over the requests read until the stream ends; each
    request comes with the clock reading its handler sees. *)
Fixpoint handleConnection (reqs : list (Z * Value)) (srv : Server) : Server :=
  match reqs with
  | [] => srv
  | (now, value) :: reqs' =>
      handleConnection reqs' (snd (fst (handleConnection_step value now srv)))
  end.

(** The callback that [StartServer] passes to [aof.Read]; [None] is the
    index-out-of-range panic of [value.array[0]] on an empty array. *)
Definition replay_apply (value : Value) (now : Z) (ks : Keyspace) : option Keyspace :=
  match array value with
  | [] => None
  | v0 :: args =>
      let command := strings.ToUpper (bulk v0) in
      match Handlers command with
      | None => Some ks
      | Some handler => Some (snd (handler args now ks))
      end
  end.

(** Modelled from the spec: [aof.Read] decodes the commands of the log in
    order and calls the callback on each; [tick i] is the clock reading
    during the [i]-th call. *)
Fixpoint aof_Read (log : Aof) (tick : nat -> Z) (i : nat) (ks : Keyspace)
  : option Keyspace :=
  match log with
  | [] => Some ks
  | value :: log' =>
      match replay_apply value (tick i) ks with
      | None => None
      | Some ks' => aof_Read log' tick (S i) ks'
      end
  end.

(** Restart: the keyspace rebuilt from the log, starting from empty maps. *)
Definition replay (log : Aof) (tick : nat -> Z) : option Keyspace :=
  aof_Read log tick 0%nat empty_keyspace.

(** ** States reachable through the routing table *)

Inductive reachable : Keyspace -> Prop :=
  | reachable_empty : reachable empty_keyspace
  | reachable_call ks command handler args now :
      reachable ks ->
      Handlers command = Some handler ->
      reachable (snd (handler args now ks)).

(** Every hash of the hash store has at least one field. *)
Definition no_empty_hash (ks : Keyspace) : Prop :=
  forall hash hashMap, HSETs ks !! hash = Some hashMap -> hashMap <> ∅.

(** ** Vocabulary of the statements *)

(** The argument counts that the command table of the specification
    accepts, by command name. *)
Definition accepted_arity (command : string) (n : nat) : bool :=
  if String.eqb command "PING" then (n <=? 1)%nat
  else if String.eqb command "SET" then (n =? 2)%nat || (n =? 4)%nat
  else if String.eqb command "HSET" then (n =? 3)%nat
  else if String.eqb command "HGET" || String.eqb command "HDEL"
          || String.eqb command "EXPIRE" then (n =? 2)%nat
  else if String.eqb command "FLUSHALL" || String.eqb command "INFO" then (n =? 0)%nat
  else (n =? 1)%nat.

(** The names the specification lists as the logged commands. *)
Definition allow_list : list string :=
  ["SET"; "HSET"; "DEL"; "FLUSHALL"; "HDEL"; "INCR"; "DECR"].

(** The name a request is dispatched under. *)
Definition command_of (value : Value) : string :=
  strings.ToUpper (bulk (arg 0 (array value))).



(** The three hash reads as functions of the hash store alone. *)
Definition hget_result (args : list Value) (HS : gmap string (gmap string string)) : Value :=
  if negb (length args =? 2)%nat then
    ErrorV "ERR wrong number of arguments for 'hget' command"
  else
    match HS !! bulk (arg 0 args) with
    | None => NullV
    | Some hashMap =>
        match hashMap !! bulk (arg 1 args) with
        | None => NullV
        | Some value => BulkV value
        end
    end.

Definition hgetall_result (args : list Value) (HS : gmap string (gmap string string)) : Value :=
  if negb (length args =? 1)%nat then
    ErrorV "ERR wrong number of arguments for 'hgetall' command"
  else
    match HS !! bulk (arg 0 args) with
    | None => NullV
    | Some hashMap => ArrayV (range_pairs hashMap)
    end.

Definition hlen_result (args : list Value) (HS : gmap string (gmap string string)) : Value :=
  if negb (length args =? 1)%nat then
    ErrorV "ERR wrong number of arguments for 'hlen' command"
  else
    match HS !! bulk (arg 0 args) with
    | None => IntegerV 0
    | Some hashMap => IntegerV (Z.of_nat (size hashMap))
    end.

(** ** Sample keyspaces *)

(** A keyspace with one string, one hash and one expiry. *)
Definition C1_store : Keyspace :=
  mkKeyspace {["k" := "v"]} {["h" := {["f" := "v"]}]} {["k" := 2000000000]}.

(** A hash whose expiry has passed, next to the same hash without expiry. *)
Definition expired_hash : Keyspace :=
  mkKeyspace ∅ {["h" := {["f" := "v"]}]} {["h" := 1700000000]}.

Definition plain_hash : Keyspace :=
  mkKeyspace ∅ {["h" := {["f" := "v"]}]} ∅.

(** A keyspace reached by HSET h f v, HSET h g w, HDEL h f. *)
Definition after_three_calls : Keyspace :=
  snd (hdel [BulkV "h"; BulkV "f"] 3
    (snd (hset [BulkV "h"; BulkV "g"; BulkV "w"] 2
      (snd (hset [BulkV "h"; BulkV "f"; BulkV "v"] 1 empty_keyspace))))).

(** ** The single-connection loop of main.go *)




(** ** The earlier handlers (src/unnamed/part_000)

    The version of the handlers before expirations: two maps, no clock. *)
Module Legacy.

Record Store : Type := mkStore {
  SETs : gmap string string;
  HSETs : gmap string (gmap string string)
}.

Definition Handler : Type := list Value -> Store -> Value * Store.

Definition set : Handler := fun args st =>
  if negb (length args =? 2)%nat then
    (ErrorV "ERR wrong number of arguments for 'set' command", st)
  else
    let key := bulk (arg 0 args) in
    let value := bulk (arg 1 args) in
    (StringV "OK", mkStore (<[key := value]> (SETs st)) (HSETs st)).

Definition get : Handler := fun args st =>
  if negb (length args =? 1)%nat then
    (ErrorV "ERR wrong number of arguments for 'get' command", st)
  else
    let key := bulk (arg 0 args) in
    match SETs st !! key with
    | None => (NullV, st)
    | Some value => (BulkV value, st)
    end.

Definition hset : Handler := fun args st =>
  if negb (length args =? 3)%nat then
    (ErrorV "ERR wrong number of arguments for 'hset' command", st)
  else
    let hash := bulk (arg 0 args) in
    let key := bulk (arg 1 args) in
    let value := bulk (arg 2 args) in
    let HSETs1 :=
      match HSETs st !! hash with
      | Some _ => HSETs st
      | None => <[hash := ∅]> (HSETs st)
      end in
    (StringV "OK", mkStore (SETs st) (alter (fun m => <[key := value]> m) hash HSETs1)).

(** [HSETs[hash][key]]: reading a missing hash gives the nil map, and
    reading the nil map gives "not found". *)
Definition hget : Handler := fun args st =>
  if negb (length args =? 2)%nat then
    (ErrorV "ERR wrong number of arguments for 'hget' command", st)
  else
    let hash := bulk (arg 0 args) in
    let key := bulk (arg 1 args) in
    match default ∅ (HSETs st !! hash) !! key with
    | None => (NullV, st)
    | Some value => (BulkV value, st)
    end.

Definition hgetall : Handler := fun args st =>
  if negb (length args =? 1)%nat then
    (ErrorV "ERR wrong number of arguments for 'hgetall' command", st)
  else
    let hash := bulk (arg 0 args) in
    match HSETs st !! hash with
    | None => (NullV, st)
    | Some value => (ArrayV (range_pairs value), st)
    end.

(** [delete(HSETs[hash], key)]: on a missing hash the delete acts on the
    nil map and does nothing; an emptied hash stays in the store. *)
Definition hdel : Handler := fun args st =>
  if negb (length args =? 2)%nat then
    (ErrorV "ERR wrong number of arguments for 'hdel' command", st)
  else
    let hash := bulk (arg 0 args) in
    let key := bulk (arg 1 args) in
    (StringV "OK", mkStore (SETs st) (alter (fun m => delete key m) hash (HSETs st))).

Definition hlen : Handler := fun args st =>
  if negb (length args =? 1)%nat then
    (ErrorV "ERR wrong number of arguments for 'hlen' command", st)
  else
    let hash := bulk (arg 0 args) in
    match HSETs st !! hash with
    | None => (IntegerV 0, st)
    | Some hashMap => (IntegerV (Z.of_nat (size hashMap)), st)
    end.

Definition flushall : Handler := fun args st =>
  (StringV "OK", mkStore ∅ ∅).

Definition del : Handler := fun args st =>
  if negb (length args =? 1)%nat then
    (ErrorV "ERR wrong number of arguments for 'del' command", st)
  else
    let key := bulk (arg 0 args) in
    (StringV "OK", mkStore (delete key (SETs st)) (delete key (HSETs st))).

Definition incr : Handler := fun args st =>
  if negb (length args =? 1)%nat then
    (ErrorV "ERR wrong number of arguments for 'incr' command", st)
  else
    let key := bulk (arg 0 args) in
    match SETs st !! key with
    | None => (IntegerV 1, mkStore (<[key := "1"]> (SETs st)) (HSETs st))
    | Some value =>
        match strconv.Atoi value with
        | None => (ErrorV "ERR value is not an integer", st)
        | Some n =>
            let n' := Int64.add n 1 in
            (IntegerV n', mkStore (<[key := strconv.Itoa n']> (SETs st)) (HSETs st))
        end
    end.

Definition decr : Handler := fun args st =>
  if negb (length args =? 1)%nat then
    (ErrorV "ERR wrong number of arguments for 'decr' command", st)
  else
    let key := bulk (arg 0 args) in
    match SETs st !! key with
    | None => (IntegerV 0, mkStore (<[key := "0"]> (SETs st)) (HSETs st))
    | Some value =>
        match strconv.Atoi value with
        | None => (ErrorV "ERR value is not an integer", st)
        | Some n =>
            let n' := Int64.sub n 1 in
            (IntegerV n', mkStore (<[key := strconv.Itoa n']> (SETs st)) (HSETs st))
        end
    end.

End Legacy.

(** The two maps of a keyspace, as the earlier handlers see them. *)
Definition store_of (ks : Keyspace) : Legacy.Store :=
  Legacy.mkStore (SETs ks) (HSETs ks).


(** ** Vocabulary of the further statements *)

(** The error text of a failed argument-count check. *)
Definition arity_message (command : string) : string :=
  "ERR wrong number of arguments for '" +:+ strings.ToLower command +:+ "' command".

(** The expiry of [key] has passed at clock [now]. *)
Definition passed (now : Z) (ks : Keyspace) (key : string) : bool :=
  match Expirations ks !! key with
  | Some expireAt => now >? expireAt
  | None => false
  end.

(** A request that [handleConnection] appends to the log. *)
Definition is_logged_request (value : Value) : bool :=
  String.eqb (typ value) "array" && negb (length (array value) =? 0)%nat
  && logged (command_of value).



(** * Properties *)

(** ** 64-bit arithmetic and decimal conversion *)

Lemma wrap64_id (z : Z) : Int64.in_range z -> Int64.wrap64 z = z.
Proof.
  unfold Int64.in_range, Int64.wrap64, Int64.MinInt64, Int64.MaxInt64.
  intros H. rewrite Z.mod_small; lia.
Qed.

Lemma wrap64_in_range (z : Z) : Int64.in_range (Int64.wrap64 z).
Proof.
  unfold Int64.in_range, Int64.wrap64, Int64.MinInt64, Int64.MaxInt64.
  pose proof (Z.mod_pos_bound (z + 2 ^ 63) (2 ^ 64)). lia.
Qed.

Lemma digit_digit_char (d : Z) :
  0 <= d < 10 -> strconv.digit (strconv.digit_char d) = Some d.
Proof.
  intros H.
  assert (Hd : d = 0 \/ d = 1 \/ d = 2 \/ d = 3 \/ d = 4 \/ d = 5 \/ d = 6
               \/ d = 7 \/ d = 8 \/ d = 9) by lia.
  repeat (destruct Hd as [-> | Hd]; [reflexivity |]). subst d. reflexivity.
Qed.

Lemma digit_not_sign (c : ascii) (d : Z) :
  strconv.digit c = Some d -> Ascii.eqb c "+" || Ascii.eqb c "-" = false.
Proof.
  intros H.
  destruct (Ascii.eqb_spec c "+") as [-> | _]; [discriminate H |].
  destruct (Ascii.eqb_spec c "-") as [-> | _]; [discriminate H |].
  reflexivity.
Qed.

Lemma digits_formatBits (fuel : nat) :
  forall u acc, 0 <= u < 10 ^ Z.of_nat fuel ->
  exists k, forall a,
    strconv.digits a (strconv.formatBits fuel u acc)
    = strconv.digits (a * 10 ^ k + u) acc /\ 0 <= k.
Proof.
  induction fuel as [| fuel IH]; intros u acc Hu.
  - simpl in Hu. assert (u = 0) by lia. subst u.
    exists 0. intros a. simpl. split; [f_equal; lia | lia].
  - cbn [strconv.formatBits].
    destruct (Z.ltb_spec u 10) as [Hlt | Hge].
    + exists 1. intros a. cbn [strconv.digits].
      rewrite Z.mod_small by lia. rewrite digit_digit_char by lia.
      split; [f_equal; lia | lia].
    + destruct (IH (u / 10) (String (strconv.digit_char (u mod 10)) acc)) as [k Hk].
      { split; [apply Z.div_pos; lia |].
        apply Z.div_lt_upper_bound; [lia |].
        rewrite Nat2Z.inj_succ, Z.pow_succ_r in Hu by lia. lia. }
      exists (k + 1). intros a. destruct (Hk a) as [-> Hk0].
      cbn [strconv.digits].
      rewrite digit_digit_char by (apply Z.mod_pos_bound; lia).
      split; [| lia]. f_equal.
      rewrite Z.pow_add_r by lia.
      pose proof (Z.div_mod u 10). lia.
Qed.

Lemma formatBits_cons (fuel : nat) (u : Z) (acc : string) :
  acc <> EmptyString \/ (0 < fuel)%nat ->
  strconv.formatBits fuel u acc <> EmptyString.
Proof.
  revert u acc.
  induction fuel as [| fuel IH]; intros u acc [Hacc | Hf]; cbn [strconv.formatBits];
    try assumption; try lia;
    destruct (u <? 10); try discriminate; apply IH; left; discriminate.
Qed.

Lemma digits_pos (s : string) :
  forall a u, strconv.digits a s = Some u ->
  s <> EmptyString ->
  exists c r d, s = String c r /\ strconv.digit c = Some d.
Proof.
  destruct s as [| c r]; intros a u H Hne; [congruence |].
  cbn [strconv.digits] in H.
  destruct (strconv.digit c) as [d |] eqn:Hd; [| discriminate].
  eauto.
Qed.

Lemma ParseInt_unsigned (s : string) (u : Z) :
  s <> EmptyString -> strconv.digits 0 s = Some u -> 0 <= u < 2 ^ 63 ->
  strconv.ParseInt s = Some u.
Proof.
  intros Hne Hd Hu.
  destruct (digits_pos s 0 u Hd Hne) as (c & r & d & -> & Hc).
  unfold strconv.ParseInt.
  pose proof (digit_not_sign c d Hc) as Hs. rewrite Hs.
  apply orb_false_elim in Hs as [_ Hm]. rewrite Hm, Hd.
  destruct (Z.ltb_spec u (2 ^ 63)); [reflexivity | lia].
Qed.

Lemma ParseInt_negative (s : string) (u : Z) :
  s <> EmptyString -> strconv.digits 0 s = Some u -> 0 <= u <= 2 ^ 63 ->
  strconv.ParseInt (String "-" s) = Some (- u).
Proof.
  intros Hne Hd Hu. unfold strconv.ParseInt.
  change (Ascii.eqb "-" "-") with true. change (Ascii.eqb "-" "+") with false.
  cbn [orb]. destruct s as [| c r]; [congruence |]. rewrite Hd.
  destruct (Z.leb_spec u (2 ^ 63)); [reflexivity | lia].
Qed.

(** The decimal text that [Itoa] writes for a 64-bit value is read back by
    [Atoi] (and by [ParseInt]) as that value. *)
Lemma Atoi_Itoa (n : Z) :
  Int64.in_range n -> strconv.Atoi (strconv.Itoa n) = Some n.
Proof.
  unfold Int64.in_range, Int64.MinInt64, Int64.MaxInt64, strconv.Atoi, strconv.Itoa.
  intros Hn.
  destruct (Z.ltb_spec n 0) as [Hneg | Hpos].
  - destruct (digits_formatBits 20 (- n) EmptyString) as [k Hk]; [lia |].
    destruct (Hk 0) as [Hd _]. cbn [strconv.digits] in Hd.
    rewrite (ParseInt_negative _ (- n)).
    + f_equal; lia.
    + apply formatBits_cons; right; lia.
    + rewrite Hd. f_equal.
    + lia.
  - destruct (digits_formatBits 20 n EmptyString) as [k Hk]; [lia |].
    destruct (Hk 0) as [Hd _]. cbn [strconv.digits] in Hd.
    apply ParseInt_unsigned.
    + apply formatBits_cons; right; lia.
    + rewrite Hd. f_equal.
    + lia.
Qed.

Lemma digit_bound (c : ascii) (d : Z) : strconv.digit c = Some d -> 0 <= d < 10.
Proof.
  unfold strconv.digit.
  destruct (Z.leb_spec 48 (Z.of_N (N_of_ascii c))); cbn [andb]; [| discriminate].
  destruct (Z.leb_spec (Z.of_N (N_of_ascii c)) 57); [| discriminate].
  intros [= <-]. lia.
Qed.

Lemma digits_nonneg (s : string) :
  forall a u, 0 <= a -> strconv.digits a s = Some u -> 0 <= u.
Proof.
  induction s as [| c r IH]; intros a u Ha; cbn [strconv.digits].
  - intros [= <-]. exact Ha.
  - destruct (strconv.digit c) as [d |] eqn:Hd; [| discriminate].
    apply IH. pose proof (digit_bound c d Hd). lia.
Qed.

Lemma ParseInt_in_range (s : string) (n : Z) :
  strconv.ParseInt s = Some n -> Int64.in_range n.
Proof.
  unfold strconv.ParseInt, Int64.in_range, Int64.MinInt64, Int64.MaxInt64.
  destruct s as [| c r]; [discriminate |].
  destruct (if Ascii.eqb c "+" || Ascii.eqb c "-" then r else String c r);
    [discriminate |].
  match goal with |- context [strconv.digits 0 ?b] =>
    destruct (strconv.digits 0 b) as [un |] eqn:Hd end; [| discriminate].
  assert (0 <= un) by (eapply digits_nonneg; [| exact Hd]; lia).
  destruct (Ascii.eqb c "-").
  - destruct (Z.leb_spec un (2 ^ 63)); [| discriminate]. intros [= <-]. lia.
  - destruct (Z.ltb_spec un (2 ^ 63)); [| discriminate]. intros [= <-]. lia.
Qed.

(** ** Argument counts *)

Ltac split_args args :=
  destruct args as [| ?a0 [| ?a1 [| ?a2 [| ?a3 [| ?a4 args]]]]].

(** Every handler but [ping] and [flushall] checks its argument count
    first: on a count it does not accept it answers with an error and
    leaves the three maps as they are. *)
Lemma checked_arity (command : string) (handler : Handler) (args : list Value)
    (now : Z) (ks : Keyspace) :
  Handlers command = Some handler ->
  command <> "PING" -> command <> "FLUSHALL" ->
  accepted_arity command (length args) = false ->
  is_error (fst (handler args now ks)) /\ snd (handler args now ks) = ks.
Proof.
  unfold Handlers, Handlers_table, assoc, is_error.
  intros Hh Hping Hflush Har.
  repeat match type of Hh with
  | context [String.eqb command ?s] =>
      destruct (String.eqb_spec command s) as [-> | _]
  end; try discriminate Hh; try congruence;
  injection Hh as <-;
  split_args args; try discriminate Har; split; reflexivity.
Qed.

(** C1.  The argument-count rule does not hold for [flushall]: called with
    one argument, which the command table does not accept, it answers "OK"
    instead of an error and empties the string store, the hash store and
    the expiration index. *)
Theorem flushall_ignores_arguments :
  Handlers "FLUSHALL" = Some flushall /\
  accepted_arity "FLUSHALL" (length [BulkV "x"]) = false /\
  flushall [BulkV "x"] 1700000000 C1_store = (StringV "OK", empty_keyspace) /\
  ~ is_error (fst (flushall [BulkV "x"] 1700000000 C1_store)) /\
  snd (flushall [BulkV "x"] 1700000000 C1_store) <> C1_store.
Proof.
  repeat split; try reflexivity; discriminate.
Qed.

(** [ping] has no check either: with two arguments it echoes the first one
    (the maps are not touched). *)
Lemma ping_ignores_extra_arguments (ks : Keyspace) :
  accepted_arity "PING" (length [BulkV "a"; BulkV "b"]) = false /\
  ping [BulkV "a"; BulkV "b"] 0 ks = (StringV "a", ks).
Proof. split; reflexivity. Qed.

(** ** GET *)

(** What [get] answers for a key without a string entry whose expiry, if
    any, has not passed: an empty bulk when the key has no expiry or is a
    hash, and null only when an expiry entry is all that is left of it. *)
Lemma get_without_string (key : string) (now : Z) (ks : Keyspace) :
  SETs ks !! key = None ->
  (forall expireAt, Expirations ks !! key = Some expireAt -> now <= expireAt) ->
  get [BulkV key] now ks =
    (if bool_decide (is_Some (HSETs ks !! key)) then BulkV ""
     else if bool_decide (is_Some (Expirations ks !! key)) then NullV
     else BulkV "",
     ks).
Proof.
  intros Hset Hexp. unfold get, checkAndDeleteIfExpired.
  cbn [length Nat.eqb negb arg nth bulk BulkV].
  rewrite Hset.
  destruct (Expirations ks !! key) as [expireAt |] eqn:He; cbn [comma_ok andb].
  - specialize (Hexp expireAt eq_refl).
    destruct (Z.gtb_spec now expireAt); [lia |].
    destruct (HSETs ks !! key) eqn:Hh; reflexivity.
  - destruct (HSETs ks !! key) eqn:Hh; reflexivity.
Qed.

(** C2.  For a key that is in neither the string store nor the expiration
    index (in particular an entirely absent key, and a key present only in
    the hash store), [get] returns an empty bulk, not null, and changes
    nothing. *)
Theorem get_absent_is_empty_bulk (key : string) (now : Z) (ks : Keyspace) :
  SETs ks !! key = None ->
  Expirations ks !! key = None ->
  get [BulkV key] now ks = (BulkV "", ks) /\ BulkV "" <> NullV.
Proof.
  intros Hset Hexp. split; [| discriminate].
  rewrite get_without_string; [| assumption | intros e He; congruence].
  rewrite Hexp. destruct (HSETs ks !! key); reflexivity.
Qed.

Lemma get_absent_is_empty_bulk_witness :
  get [BulkV "missing"] 1700000000 empty_keyspace = (BulkV "", empty_keyspace)
  /\ BulkV "" <> NullV.
Proof.
  apply (get_absent_is_empty_bulk "missing" 1700000000 empty_keyspace);
    reflexivity.
Defined.

(** The same on a key that only the hash store holds. *)
Lemma get_hash_key_is_empty_bulk :
  get [BulkV "h"] 1700000000 (mkKeyspace ∅ {["h" := {["f" := "v"]}]} ∅)
  = (BulkV "", mkKeyspace ∅ {["h" := {["f" := "v"]}]} ∅).
Proof. reflexivity. Qed.

(** Null comes back only through the flag of [checkAndDeleteIfExpired]:
    here for a key deleted by DEL whose expiry entry DEL left behind. *)
Lemma get_orphan_expiry_is_null :
  get [BulkV "k"] 1700000000 (mkKeyspace ∅ ∅ {["k" := 1700000100]})
  = (NullV, mkKeyspace ∅ ∅ {["k" := 1700000100]}).
Proof. reflexivity. Qed.

(** The lazy check itself: once the expiry instant has passed, the key
    leaves the three maps and the read answers null. *)
Lemma get_expired (key : string) (now expireAt : Z) (ks : Keyspace) :
  Expirations ks !! key = Some expireAt -> expireAt < now ->
  get [BulkV key] now ks =
    (NullV, mkKeyspace (delete key (SETs ks)) (delete key (HSETs ks))
                       (delete key (Expirations ks))).
Proof.
  intros He Hlt. unfold get, checkAndDeleteIfExpired.
  cbn [length Nat.eqb negb arg nth bulk BulkV].
  rewrite He. cbn [comma_ok andb].
  destruct (Z.gtb_spec now expireAt); [reflexivity | lia].
Qed.

(** ** The persistence log *)

Lemma logged_allow_list (command : string) :
  logged command = true <-> In command allow_list.
Proof.
  unfold logged, allow_list. cbn [In].
  repeat rewrite orb_true_iff. repeat rewrite String.eqb_eq.
  intuition congruence.
Qed.

Lemma logged_handler (command : string) :
  logged command = true -> exists handler, Handlers command = Some handler.
Proof.
  intros H. apply logged_allow_list in H. cbn [In allow_list] in H.
  repeat (destruct H as [<- | H]; [eexists; reflexivity |]). destruct H.
Qed.

Lemma handleConnection_step_dispatch (value : Value) (now : Z) (srv : Server)
    (handler : Handler) :
  typ value = "array" -> array value <> [] ->
  Handlers (command_of value) = Some handler ->
  handleConnection_step value now srv =
    (fst (handler (tail (array value)) now (keyspace srv)),
     mkServer (snd (handler (tail (array value)) now (keyspace srv)))
              (if logged (command_of value) then aof_Write value (aof srv) else aof srv),
     Dispatched (command_of value) (logged (command_of value))).
Proof.
  intros Ht Ha Hh. unfold handleConnection_step.
  rewrite Ht. change (negb ("array" =? "array")%string) with false.
  destruct (array value) as [| v0 args] eqn:Harr; [congruence |].
  cbn [orb length Nat.eqb].
  unfold command_of in Hh. rewrite Harr in Hh. rewrite Hh.
  unfold command_of. rewrite Harr.
  destruct (handler (tail (v0 :: args)) now (keyspace srv)). reflexivity.
Qed.









(** A session that sets a key and then its expiry: the live keyspace holds
    the expiry, the log holds the SET alone, and the keyspace rebuilt from
    the log has no expiry for the key. *)
Lemma expire_not_replayed :
  let reqs := [ (1700000000, ArrayV [BulkV "set"; BulkV "k"; BulkV "v"]);
                (1700000001, ArrayV [BulkV "expire"; BulkV "k"; BulkV "100"]) ] in
  let srv := handleConnection reqs (mkServer empty_keyspace []) in
  Expirations (keyspace srv) !! "k" = Some 1700000101 /\
  aof srv = [ArrayV [BulkV "set"; BulkV "k"; BulkV "v"]] /\
  replay (aof srv) (fun _ => 1700000050)
    = Some (mkKeyspace {["k" := "v"]} ∅ ∅).
Proof. repeat split; vm_compute; reflexivity. Qed.

(** The older loop of main.go guards [aof.Write] with a shorter list: what
    it logs, [handleConnection] logs too, and it logs neither EXPIRE nor
    PERSIST; INCR and DECR are not in it. *)
Lemma main_logged_sub (command : string) :
  (main_logged command = true -> logged command = true) /\
  (command = "EXPIRE" \/ command = "PERSIST" -> main_logged command = false) /\
  main_logged "INCR" = false /\ main_logged "DECR" = false.
Proof.
  repeat split.
  - unfold main_logged, logged. intros H. rewrite H. reflexivity.
  - intros [-> | ->]; reflexivity.
Qed.

(** ** INCR and DECR *)

Lemma incr_absent (key : string) (now : Z) (ks : Keyspace) :
  SETs ks !! key = None ->
  incr [BulkV key] now ks =
    (IntegerV 1, mkKeyspace (<[key := "1"]> (SETs ks)) (HSETs ks) (Expirations ks)).
Proof.
  intros H. unfold incr. cbn [length Nat.eqb negb arg nth bulk BulkV].
  rewrite H. reflexivity.
Qed.

Lemma decr_absent (key : string) (now : Z) (ks : Keyspace) :
  SETs ks !! key = None ->
  decr [BulkV key] now ks =
    (IntegerV 0, mkKeyspace (<[key := "0"]> (SETs ks)) (HSETs ks) (Expirations ks)).
Proof.
  intros H. unfold decr. cbn [length Nat.eqb negb arg nth bulk BulkV].
  rewrite H. reflexivity.
Qed.

(** On a stored value that [Atoi] reads as [n] the new value is the
    wrapped sum. *)
Lemma incr_number (key value : string) (n now : Z) (ks : Keyspace) :
  SETs ks !! key = Some value -> strconv.Atoi value = Some n ->
  incr [BulkV key] now ks =
    (IntegerV (Int64.add n 1),
     mkKeyspace (<[key := strconv.Itoa (Int64.add n 1)]> (SETs ks))
                (HSETs ks) (Expirations ks)).
Proof.
  intros H Hn. unfold incr. cbn [length Nat.eqb negb arg nth bulk BulkV].
  rewrite H, Hn. reflexivity.
Qed.

Lemma decr_number (key value : string) (n now : Z) (ks : Keyspace) :
  SETs ks !! key = Some value -> strconv.Atoi value = Some n ->
  decr [BulkV key] now ks =
    (IntegerV (Int64.sub n 1),
     mkKeyspace (<[key := strconv.Itoa (Int64.sub n 1)]> (SETs ks))
                (HSETs ks) (Expirations ks)).
Proof.
  intros H Hn. unfold decr. cbn [length Nat.eqb negb arg nth bulk BulkV].
  rewrite H, Hn. reflexivity.
Qed.

Lemma incr_decr_not_number (key value : string) (now : Z) (ks : Keyspace) :
  SETs ks !! key = Some value -> strconv.Atoi value = None ->
  incr [BulkV key] now ks = (ErrorV "ERR value is not an integer", ks) /\
  decr [BulkV key] now ks = (ErrorV "ERR value is not an integer", ks).
Proof.
  intros H Hn. unfold incr, decr. cbn [length Nat.eqb negb arg nth bulk BulkV].
  rewrite H, Hn. split; reflexivity.
Qed.

(** C4, as the code has it.  On a key absent from the string store INCR
    stores "1" and returns 1, DECR stores "0" and returns 0.  On a stored
    value that [Atoi] reads as the 64-bit integer [n] (the decimal text of
    any 64-bit [n] is read so), INCR stores and returns the 64-bit sum of
    [n] and 1, which is [n + 1] provided [n < MaxInt64], and DECR stores and
    returns the 64-bit difference, which is [n - 1] provided [MinInt64 < n].
    On a stored value that [Atoi] rejects both return an error and leave the
    keyspace, hence the stored value, unchanged. *)
Theorem incr_decr_spec (key : string) (now : Z) (ks : Keyspace) :
  (SETs ks !! key = None ->
     incr [BulkV key] now ks =
       (IntegerV 1, mkKeyspace (<[key := "1"]> (SETs ks)) (HSETs ks) (Expirations ks))
     /\ decr [BulkV key] now ks =
       (IntegerV 0, mkKeyspace (<[key := "0"]> (SETs ks)) (HSETs ks) (Expirations ks)))
  /\ (forall n, Int64.in_range n -> strconv.Atoi (strconv.Itoa n) = Some n)
  /\ (forall value n,
        SETs ks !! key = Some value -> strconv.Atoi value = Some n ->
        (incr [BulkV key] now ks =
           (IntegerV (Int64.add n 1),
            mkKeyspace (<[key := strconv.Itoa (Int64.add n 1)]> (SETs ks))
                       (HSETs ks) (Expirations ks))
         /\ (n < Int64.MaxInt64 -> Int64.add n 1 = n + 1))
        /\ (decr [BulkV key] now ks =
             (IntegerV (Int64.sub n 1),
              mkKeyspace (<[key := strconv.Itoa (Int64.sub n 1)]> (SETs ks))
                         (HSETs ks) (Expirations ks))
            /\ (Int64.MinInt64 < n -> Int64.sub n 1 = n - 1)))
  /\ (forall value,
        SETs ks !! key = Some value -> strconv.Atoi value = None ->
        is_error (fst (incr [BulkV key] now ks)) /\ snd (incr [BulkV key] now ks) = ks
        /\ is_error (fst (decr [BulkV key] now ks)) /\ snd (decr [BulkV key] now ks) = ks).
Proof.
  split; [| split; [| split]].
  - intros H. split; [apply incr_absent | apply decr_absent]; exact H.
  - exact Atoi_Itoa.
  - intros value n H Hn.
    pose proof (ParseInt_in_range value n Hn) as Hr.
    unfold Int64.in_range in Hr.
    split; split.
    + exact (incr_number key value n now ks H Hn).
    + intros Hb. unfold Int64.add. apply wrap64_id. unfold Int64.in_range. lia.
    + exact (decr_number key value n now ks H Hn).
    + intros Hb. unfold Int64.sub. apply wrap64_id. unfold Int64.in_range. lia.
  - intros value H Hn.
    destruct (incr_decr_not_number key value now ks H Hn) as [-> ->].
    repeat split.
Qed.

Lemma incr_decr_spec_witness :
  incr [BulkV "n"] 1700000000 (mkKeyspace {["n" := "41"]} ∅ ∅)
  = (IntegerV 42, mkKeyspace {["n" := "42"]} ∅ ∅).
Proof.
  destruct (incr_decr_spec "n" 1700000000 (mkKeyspace {["n" := "41"]} ∅ ∅))
    as (_ & _ & H & _).
  destruct (H "41" 41 eq_refl eq_refl) as [[Hi _] _].
  rewrite Hi. reflexivity.
Defined.

(** C4 as stated fails at the largest 64-bit integer: the stored text is
    the decimal representation of [n = MaxInt64], and INCR stores and
    returns [MinInt64], not [n + 1]. *)
Lemma incr_wraps_at_MaxInt64 :
  let ks := mkKeyspace {["k" := "9223372036854775807"]} ∅ ∅ in
  strconv.Itoa 9223372036854775807 = "9223372036854775807" /\
  incr [BulkV "k"] 1700000000 ks =
    (IntegerV (-9223372036854775808),
     mkKeyspace {["k" := "-9223372036854775808"]} ∅ ∅) /\
  fst (incr [BulkV "k"] 1700000000 ks) <> IntegerV (9223372036854775807 + 1).
Proof. repeat split; vm_compute; congruence. Qed.

(** DECR wraps at the other end, and a decimal text beyond 64 bits is
    answered with an error. *)
Lemma decr_wraps_at_MinInt64 :
  decr [BulkV "k"] 1700000000 (mkKeyspace {["k" := "-9223372036854775808"]} ∅ ∅)
  = (IntegerV 9223372036854775807,
     mkKeyspace {["k" := "9223372036854775807"]} ∅ ∅).
Proof. vm_compute. reflexivity. Qed.

Lemma incr_beyond_64_bits :
  incr [BulkV "k"] 1700000000 (mkKeyspace {["k" := "9223372036854775808"]} ∅ ∅)
  = (ErrorV "ERR value is not an integer",
     mkKeyspace {["k" := "9223372036854775808"]} ∅ ∅).
Proof. vm_compute. reflexivity. Qed.

(** ** SET, EXPIRE and TTL *)

Lemma set_plain (k v : Value) (now : Z) (ks : Keyspace) :
  set [k; v] now ks =
    (StringV "OK",
     mkKeyspace (<[bulk k := bulk v]> (SETs ks)) (HSETs ks)
                (delete (bulk k) (Expirations ks))).
Proof. reflexivity. Qed.

Lemma set_with_EX (k v opt secs : Value) (n now : Z) (ks : Keyspace) :
  strings.ToLower (bulk opt) = "ex" ->
  strconv.ParseInt (bulk secs) = Some n -> 0 < n ->
  set [k; v; opt; secs] now ks =
    (StringV "OK",
     mkKeyspace (<[bulk k := bulk v]> (SETs ks)) (HSETs ks)
                (<[bulk k := Int64.add now n]> (Expirations ks))).
Proof.
  intros Hopt Hsecs Hn. unfold set.
  cbn [length Nat.ltb Nat.leb Nat.eqb negb arg nth].
  rewrite Hopt, Hsecs. change (negb ("ex" =? "ex")%string) with false. cbv iota.
  destruct (Z.leb_spec n 0); [lia |].
  destruct (Z.gtb_spec n 0); [reflexivity | lia].
Qed.

(** The argument lists on which [set] answers "OK" are exactly the two
    shapes above. *)
Lemma set_ok_inv (args : list Value) (now : Z) (ks : Keyspace) :
  fst (set args now ks) = StringV "OK" ->
  (exists k v, args = [k; v]) \/
  (exists k v opt secs n,
     args = [k; v; opt; secs] /\ strings.ToLower (bulk opt) = "ex" /\
     strconv.ParseInt (bulk secs) = Some n /\ 0 < n).
Proof.
  unfold set. intros Hok.
  split_args args; cbn [length Nat.ltb Nat.leb Nat.eqb negb arg nth fst] in Hok;
    try discriminate Hok; [left; eauto | right].
  destruct (String.eqb_spec (strings.ToLower (bulk a2)) "ex") as [Hex | _];
    [| discriminate Hok].
  cbn [negb] in Hok.
  destruct (strconv.ParseInt (bulk a3)) as [n |] eqn:Hn; [| discriminate Hok].
  destruct (Z.leb_spec n 0); [discriminate Hok |].
  exists a0, a1, a2, a3, n. repeat split; assumption.
Qed.

(** C5, as the code has it.  SET key val answers "OK", maps key to val in
    the string store and removes the expiry of key; SET key val EX secs,
    with secs read by [ParseInt] as [n > 0], answers "OK", maps key to val
    and sets the expiry of key to the 64-bit sum of the clock and [n],
    which is [now + n] whenever that sum fits in 64 bits.  The hash store
    is the same afterwards in both cases. *)
Theorem set_spec (k v : Value) (now : Z) (ks : Keyspace) :
  (let ks' := snd (set [k; v] now ks) in
   fst (set [k; v] now ks) = StringV "OK" /\
   SETs ks' !! bulk k = Some (bulk v) /\
   Expirations ks' !! bulk k = None /\
   HSETs ks' = HSETs ks)
  /\ (forall opt secs n,
        strings.ToLower (bulk opt) = "ex" ->
        strconv.ParseInt (bulk secs) = Some n -> 0 < n ->
        let ks' := snd (set [k; v; opt; secs] now ks) in
        fst (set [k; v; opt; secs] now ks) = StringV "OK" /\
        SETs ks' !! bulk k = Some (bulk v) /\
        Expirations ks' !! bulk k = Some (Int64.add now n) /\
        (now + n <= Int64.MaxInt64 -> Int64.MinInt64 <= now ->
           Expirations ks' !! bulk k = Some (now + n)) /\
        HSETs ks' = HSETs ks).
Proof.
  split.
  - rewrite set_plain. cbn [fst snd SETs HSETs Expirations].
    rewrite lookup_insert_eq, lookup_delete_eq. repeat split.
  - intros opt secs n Hopt Hsecs Hn.
    rewrite (set_with_EX k v opt secs n now ks Hopt Hsecs Hn).
    cbn [fst snd SETs HSETs Expirations].
    rewrite !lookup_insert_eq. repeat split.
    intros Hmax Hmin. unfold Int64.add.
    rewrite wrap64_id; [reflexivity |].
    unfold Int64.in_range. lia.
Qed.

Lemma set_spec_witness :
  Expirations (snd (set [BulkV "k"; BulkV "v"; BulkV "EX"; BulkV "60"] 1700000000
                        empty_keyspace)) !! "k" = Some 1700000060.
Proof.
  destruct (set_spec (BulkV "k") (BulkV "v") 1700000000 empty_keyspace) as [_ H].
  destruct (H (BulkV "EX") (BulkV "60") 60 eq_refl eq_refl ltac:(lia))
    as (_ & _ & _ & Hex & _).
  apply Hex; unfold Int64.MaxInt64, Int64.MinInt64; lia.
Defined.

(** C5 as stated fails when the sum leaves the 64-bit range: SET k v EX
    9223372036854775807 succeeds, and the expiry it records is not
    [now + secs] but that sum wrapped around, an instant long past. *)
Lemma set_EX_overflow :
  let now := 1700000000 in
  let secs := 9223372036854775807 in
  let res := set [BulkV "k"; BulkV "v"; BulkV "EX"; BulkV "9223372036854775807"]
                 now empty_keyspace in
  strconv.ParseInt "9223372036854775807" = Some secs /\
  fst res = StringV "OK" /\
  Expirations (snd res) !! "k" = Some (-9223372035154775809) /\
  Expirations (snd res) !! "k" <> Some (now + secs).
Proof. repeat split; vm_compute; congruence. Qed.

Lemma expire_invalid (k secs : Value) (now : Z) (ks : Keyspace) :
  (strconv.ParseInt (bulk secs) = None \/
   exists n, strconv.ParseInt (bulk secs) = Some n /\ n <= 0) ->
  expire [k; secs] now ks = (ErrorV "ERR invalid expire time", ks).
Proof.
  unfold expire. cbn [length Nat.eqb negb arg nth].
  intros [-> | (n & -> & Hn)]; [reflexivity |].
  destruct (Z.leb_spec n 0); [reflexivity | lia].
Qed.

Lemma expire_valid (k secs : Value) (n now : Z) (ks : Keyspace) :
  strconv.ParseInt (bulk secs) = Some n -> 0 < n ->
  expire [k; secs] now ks =
    if bool_decide (is_Some (SETs ks !! bulk k))
       || bool_decide (is_Some (HSETs ks !! bulk k))
    then (IntegerV 1,
          mkKeyspace (SETs ks) (HSETs ks)
                     (<[bulk k := Int64.add now n]> (Expirations ks)))
    else (IntegerV 0, ks).
Proof.
  intros Hsecs Hn. unfold expire. cbn [length Nat.eqb negb arg nth].
  rewrite Hsecs. destruct (Z.leb_spec n 0); [lia |].
  destruct (bool_decide (is_Some (SETs ks !! bulk k)));
    destruct (bool_decide (is_Some (HSETs ks !! bulk k))); reflexivity.
Qed.

(** C8, as the code has it.  With secs read by [ParseInt] as [n > 0]
    (a decimal integer between 1 and [MaxInt64]), EXPIRE returns 1 and sets
    the expiry of the key to the 64-bit sum of the clock and [n], which is
    [now + n] whenever that sum fits in 64 bits, when the key is in the
    string store or in the hash store; it returns 0 and changes nothing when
    the key is in neither.  When [ParseInt] rejects secs (not a number, or
    beyond 64 bits) or reads a value [<= 0], EXPIRE returns an error and
    changes nothing. *)
Theorem expire_spec (k secs : Value) (now : Z) (ks : Keyspace) :
  (forall n,
     strconv.ParseInt (bulk secs) = Some n -> 0 < n ->
     (is_Some (SETs ks !! bulk k) \/ is_Some (HSETs ks !! bulk k) ->
        expire [k; secs] now ks =
          (IntegerV 1,
           mkKeyspace (SETs ks) (HSETs ks)
                      (<[bulk k := Int64.add now n]> (Expirations ks)))
        /\ (now + n <= Int64.MaxInt64 -> Int64.MinInt64 <= now ->
              Int64.add now n = now + n))
     /\ (SETs ks !! bulk k = None -> HSETs ks !! bulk k = None ->
           expire [k; secs] now ks = (IntegerV 0, ks)))
  /\ ((strconv.ParseInt (bulk secs) = None \/
       exists n, strconv.ParseInt (bulk secs) = Some n /\ n <= 0) ->
      is_error (fst (expire [k; secs] now ks)) /\
      snd (expire [k; secs] now ks) = ks).
Proof.
  split.
  - intros n Hsecs Hn. rewrite (expire_valid k secs n now ks Hsecs Hn). split.
    + intros Hex. split.
      * destruct Hex as [Hex | Hex].
        -- rewrite (bool_decide_eq_true_2 _ Hex). reflexivity.
        -- rewrite (bool_decide_eq_true_2 _ Hex), orb_true_r. reflexivity.
      * intros Hmax Hmin. unfold Int64.add. apply wrap64_id.
        unfold Int64.in_range. lia.
    + intros Hs Hh. rewrite Hs, Hh.
      rewrite !bool_decide_eq_false_2 by (intros [? ?]; discriminate).
      reflexivity.
  - intros Hbad. rewrite (expire_invalid k secs now ks Hbad). split; reflexivity.
Qed.

Lemma expire_spec_witness :
  expire [BulkV "k"; BulkV "60"] 1700000000 (mkKeyspace {["k" := "v"]} ∅ ∅)
  = (IntegerV 1, mkKeyspace {["k" := "v"]} ∅ {["k" := 1700000060]}).
Proof.
  destruct (expire_spec (BulkV "k") (BulkV "60") 1700000000
              (mkKeyspace {["k" := "v"]} ∅ ∅)) as [H _].
  destruct (H 60 eq_refl ltac:(lia)) as [Hset _].
  destruct Hset as [-> _]; [left; eexists; reflexivity | reflexivity].
Defined.

(** C8 as stated fails in two ways.  EXPIRE k 9223372036854775807 on an
    existing key returns 1, and the expiry it records is the wrapped sum,
    not [now + secs]; EXPIRE k 9223372036854775808, whose secs is a decimal
    integer [> 0], returns an error. *)
Lemma expire_overflow :
  let now := 1700000000 in
  let ks := mkKeyspace {["k" := "v"]} ∅ ∅ in
  (fst (expire [BulkV "k"; BulkV "9223372036854775807"] now ks) = IntegerV 1 /\
   Expirations (snd (expire [BulkV "k"; BulkV "9223372036854775807"] now ks)) !! "k"
     = Some (-9223372035154775809) /\
   Expirations (snd (expire [BulkV "k"; BulkV "9223372036854775807"] now ks)) !! "k"
     <> Some (now + 9223372036854775807)) /\
  expire [BulkV "k"; BulkV "9223372036854775808"] now ks
    = (ErrorV "ERR invalid expire time", ks).
Proof. repeat split; vm_compute; congruence. Qed.

Lemma ttl_unfold (k : Value) (now : Z) (ks : Keyspace) :
  ttl [k] now ks =
    if negb (bool_decide (is_Some (SETs ks !! bulk k)))
       && negb (bool_decide (is_Some (HSETs ks !! bulk k)))
    then (IntegerV (-2), ks)
    else match Expirations ks !! bulk k with
         | None => (IntegerV (-1), ks)
         | Some expireAt =>
             if Int64.sub expireAt now <? 0 then (IntegerV (-2), ks)
             else (IntegerV (Int64.sub expireAt now), ks)
         end.
Proof.
  unfold ttl. cbn [length Nat.eqb negb arg nth].
  destruct (Expirations ks !! bulk k); reflexivity.
Qed.

Lemma exists_either (key : string) (ks : Keyspace) :
  is_Some (SETs ks !! key) \/ is_Some (HSETs ks !! key) ->
  negb (bool_decide (is_Some (SETs ks !! key)))
  && negb (bool_decide (is_Some (HSETs ks !! key))) = false.
Proof.
  intros [H | H]; rewrite (bool_decide_eq_true_2 _ H); cbn [negb andb];
    [reflexivity | apply andb_false_r].
Qed.

Lemma exists_neither (key : string) (ks : Keyspace) :
  SETs ks !! key = None -> HSETs ks !! key = None ->
  negb (bool_decide (is_Some (SETs ks !! key)))
  && negb (bool_decide (is_Some (HSETs ks !! key))) = true.
Proof.
  intros -> ->. rewrite !bool_decide_eq_false_2 by (intros [? ?]; discriminate).
  reflexivity.
Qed.



(** An expiry that has passed but has not been swept yet: -2. *)
Lemma ttl_past_expiry :
  ttl [BulkV "k"] 1700000100 (mkKeyspace {["k" := "v"]} ∅ {["k" := 1700000060]})
  = (IntegerV (-2), mkKeyspace {["k" := "v"]} ∅ {["k" := 1700000060]}).
Proof. reflexivity. Qed.

(** ** Hashes *)

Lemma hset_HSETs (h f v : Value) (now : Z) (ks : Keyspace) :
  hset [h; f; v] now ks =
    (StringV "OK",
     mkKeyspace (SETs ks)
       (<[bulk h := <[bulk f := bulk v]> (default ∅ (HSETs ks !! bulk h))]> (HSETs ks))
       (Expirations ks)).
Proof.
  unfold hset. cbn [length Nat.eqb negb arg nth]. do 2 f_equal.
  apply map_eq. intros i.
  destruct (decide (bulk h = i)) as [<- | Hne].
  - rewrite lookup_alter_eq, lookup_insert_eq.
    destruct (HSETs ks !! bulk h) eqn:Hh; cbn [default].
    + rewrite Hh. reflexivity.
    + rewrite lookup_insert_eq. reflexivity.
  - rewrite lookup_alter_ne, lookup_insert_ne by assumption.
    destruct (HSETs ks !! bulk h); [reflexivity |].
    rewrite lookup_insert_ne by assumption. reflexivity.
Qed.

Lemma hdel_HSETs (h f : Value) (now : Z) (ks : Keyspace) :
  hdel [h; f] now ks =
    (StringV "OK",
     mkKeyspace (SETs ks)
       (match HSETs ks !! bulk h with
        | Some m =>
            if decide (delete (bulk f) m = ∅) then delete (bulk h) (HSETs ks)
            else <[bulk h := delete (bulk f) m]> (HSETs ks)
        | None => HSETs ks
        end)
       (Expirations ks)).
Proof.
  unfold hdel. cbn [length Nat.eqb negb arg nth]. do 2 f_equal.
  destruct (HSETs ks !! bulk h) as [m |] eqn:Hh; [| reflexivity].
  rewrite lookup_alter_eq, Hh. cbn [fmap option_fmap option_map default].
  unfold id.
  destruct (decide (delete (bulk f) m = ∅)) as [He | Hne].
  - rewrite He, map_size_empty. cbn [Nat.eqb].
    apply map_eq. intros i. destruct (decide (bulk h = i)) as [<- | Hi].
    + rewrite !lookup_delete_eq. reflexivity.
    + rewrite !lookup_delete_ne, lookup_alter_ne by assumption. reflexivity.
  - destruct (Nat.eqb_spec (size (delete (bulk f) m)) 0) as [Hz | _].
    + apply map_size_empty_inv in Hz. contradiction.
    + apply map_eq. intros i. destruct (decide (bulk h = i)) as [<- | Hi].
      * rewrite lookup_alter_eq, lookup_insert_eq, Hh. reflexivity.
      * rewrite lookup_alter_ne, lookup_insert_ne by assumption. reflexivity.
Qed.

(** C7.  When hash [h] is absent, or has no field other than [f], HSET h f v
    leaves it with [f] as its only field; HDEL h f then removes [h] from the
    hash store, after which HLEN h returns 0 and HGETALL h returns null.
    HDEL with its two arguments returns "OK" in every keyspace, whether or
    not the hash or the field exists. *)
Theorem hash_lifecycle (h f v : string) (now1 now2 now3 now4 : Z) (ks : Keyspace) :
  (forall m f', HSETs ks !! h = Some m -> f' <> f -> m !! f' = None) ->
  let ks1 := snd (hset [BulkV h; BulkV f; BulkV v] now1 ks) in
  let ks2 := snd (hdel [BulkV h; BulkV f] now2 ks1) in
  HSETs ks1 !! h = Some {[f := v]} /\
  HSETs ks2 !! h = None /\
  hlen [BulkV h] now3 ks2 = (IntegerV 0, ks2) /\
  hgetall [BulkV h] now4 ks2 = (NullV, ks2) /\
  (forall h' f' now' ks', fst (hdel [h'; f'] now' ks') = StringV "OK").
Proof.
  intros Honly ks1 ks2.
  assert (H1 : HSETs ks1 !! h = Some {[f := v]}).
  { subst ks1. rewrite hset_HSETs. cbn [snd HSETs bulk BulkV].
    rewrite lookup_insert_eq. f_equal. apply map_eq. intros i.
    destruct (decide (f = i)) as [<- | Hne].
    - rewrite lookup_insert_eq, lookup_singleton_eq. reflexivity.
    - rewrite lookup_insert_ne, lookup_singleton_ne by assumption.
      destruct (HSETs ks !! h) as [m |] eqn:Hh; cbn [default].
      + apply (Honly m i eq_refl). congruence.
      + apply lookup_empty. }
  assert (H2 : HSETs ks2 !! h = None).
  { subst ks2. rewrite hdel_HSETs. cbn [snd HSETs bulk BulkV].
    rewrite H1. rewrite delete_singleton_eq.
    destruct (decide ((∅ : gmap string string) = ∅)); [| congruence].
    apply lookup_delete_eq. }
  split; [exact H1 |]. split; [exact H2 |].
  split; [| split].
  - unfold hlen. cbn [length Nat.eqb negb arg nth bulk BulkV]. rewrite H2. reflexivity.
  - unfold hgetall. cbn [length Nat.eqb negb arg nth bulk BulkV]. rewrite H2. reflexivity.
  - intros h' f' now' ks'. rewrite hdel_HSETs. reflexivity.
Qed.

Lemma hash_lifecycle_witness :
  hgetall [BulkV "h"] 4
    (snd (hdel [BulkV "h"; BulkV "f"] 2
       (snd (hset [BulkV "h"; BulkV "f"; BulkV "v"] 1 empty_keyspace))))
  = (NullV, empty_keyspace).
Proof.
  destruct (hash_lifecycle "h" "f" "v" 1 2 3 4 empty_keyspace) as (_ & _ & _ & H & _).
  - intros m f' Hm. discriminate Hm.
  - rewrite H. reflexivity.
Defined.

Lemma hget_factors (args : list Value) (now : Z) (ks : Keyspace) :
  hget args now ks = (hget_result args (HSETs ks), ks).
Proof.
  unfold hget, hget_result. destruct (negb (length args =? 2)%nat); [reflexivity |].
  destruct (HSETs ks !! bulk (arg 0 args)) as [m |]; [| reflexivity].
  destruct (m !! bulk (arg 1 args)); reflexivity.
Qed.

Lemma hgetall_factors (args : list Value) (now : Z) (ks : Keyspace) :
  hgetall args now ks = (hgetall_result args (HSETs ks), ks).
Proof.
  unfold hgetall, hgetall_result. destruct (negb (length args =? 1)%nat); [reflexivity |].
  destruct (HSETs ks !! bulk (arg 0 args)); reflexivity.
Qed.

Lemma hlen_factors (args : list Value) (now : Z) (ks : Keyspace) :
  hlen args now ks = (hlen_result args (HSETs ks), ks).
Proof.
  unfold hlen, hlen_result. destruct (negb (length args =? 1)%nat); [reflexivity |].
  destruct (HSETs ks !! bulk (arg 0 args)); reflexivity.
Qed.



(** The expired hash is still served, one field, by the three reads. *)
Lemma expired_hash_still_read :
  hget [BulkV "h"; BulkV "f"] 1800000000 expired_hash = (BulkV "v", expired_hash) /\
  hgetall [BulkV "h"] 1800000000 expired_hash
    = (ArrayV [BulkV "f"; BulkV "v"], expired_hash) /\
  hlen [BulkV "h"] 1800000000 expired_hash = (IntegerV 1, expired_hash).
Proof. repeat split. Qed.

(** ** The hash store never holds an empty hash *)

Lemma no_empty_hash_delete (key : string) (ks ks' : Keyspace) :
  HSETs ks' = delete key (HSETs ks) -> no_empty_hash ks -> no_empty_hash ks'.
Proof.
  intros Heq Hinv hash hashMap. rewrite Heq. intros Hl.
  apply lookup_delete_Some in Hl as [_ Hl]. exact (Hinv hash hashMap Hl).
Qed.

Lemma no_empty_hash_same (ks ks' : Keyspace) :
  HSETs ks' = HSETs ks -> no_empty_hash ks -> no_empty_hash ks'.
Proof. intros Heq Hinv hash hashMap. rewrite Heq. apply Hinv. Qed.

Ltac same_hashes :=
  eapply no_empty_hash_same; [| eassumption];
  repeat match goal with
  | |- context [if ?c then _ else _] => destruct c
  | |- context [match ?x with _ => _ end] => destruct x
  end; reflexivity.

Lemma handler_no_empty_hash (command : string) (handler : Handler)
    (args : list Value) (now : Z) (ks : Keyspace) :
  Handlers command = Some handler ->
  no_empty_hash ks -> no_empty_hash (snd (handler args now ks)).
Proof.
  unfold Handlers, Handlers_table, assoc. intros Hh Hinv.
  repeat match type of Hh with
  | context [String.eqb command ?s] =>
      destruct (String.eqb_spec command s) as [-> | _]
  end; try discriminate Hh; injection Hh as <-.
  - (* PING *) unfold ping. same_hashes.
  - (* SET *) unfold set. same_hashes.
  - (* GET *)
    unfold get. destruct (negb (length args =? 1)%nat); [exact Hinv |].
    unfold checkAndDeleteIfExpired.
    destruct (comma_ok 0 (Expirations ks !! bulk (arg 0 args))) as [expireAt ex].
    destruct (ex && (now >? expireAt)).
    + cbn [snd]. eapply no_empty_hash_delete; [| exact Hinv]. reflexivity.
    + destruct (SETs ks !! bulk (arg 0 args)); [exact Hinv |].
      destruct (HSETs ks !! bulk (arg 0 args)); [exact Hinv |].
      destruct ex; exact Hinv.
  - (* HSET *)
    destruct (negb (length args =? 3)%nat) eqn:Hlen;
      [unfold hset; rewrite Hlen; exact Hinv |].
    split_args args; try discriminate Hlen.
    rewrite hset_HSETs. intros hash hashMap. cbn [snd HSETs].
    destruct (decide (bulk a0 = hash)) as [<- | Hne].
    + rewrite lookup_insert_eq. intros [= <-]. apply insert_non_empty.
    + rewrite lookup_insert_ne by assumption. apply Hinv.
  - (* HGET *) rewrite hget_factors. exact Hinv.
  - (* HGETALL *) rewrite hgetall_factors. exact Hinv.
  - (* HDEL *)
    destruct (negb (length args =? 2)%nat) eqn:Hlen;
      [unfold hdel; rewrite Hlen; exact Hinv |].
    split_args args; try discriminate Hlen.
    rewrite hdel_HSETs. intros hash hashMap. cbn [snd HSETs].
    destruct (HSETs ks !! bulk a0) as [m |] eqn:Hm; [| apply Hinv].
    destruct (decide (delete (bulk a1) m = ∅)) as [He | Hne].
    + intros Hl. apply lookup_delete_Some in Hl as [_ Hl]. exact (Hinv _ _ Hl).
    + destruct (decide (bulk a0 = hash)) as [<- | Hh].
      * rewrite lookup_insert_eq. intros [= <-]. exact Hne.
      * rewrite lookup_insert_ne by assumption. apply Hinv.
  - (* HLEN *) rewrite hlen_factors. exact Hinv.
  - (* FLUSHALL *) intros hash hashMap Hl. cbn in Hl. rewrite lookup_empty in Hl. discriminate Hl.
  - (* DEL *)
    unfold del. destruct (negb (length args =? 1)%nat); [exact Hinv |].
    eapply no_empty_hash_delete; [| exact Hinv]. reflexivity.
  - (* INFO *) unfold info. same_hashes.
  - (* INCR *) unfold incr. same_hashes.
  - (* DECR *) unfold decr. same_hashes.
  - (* EXPIRE *) unfold expire. same_hashes.
  - (* TTL *) unfold ttl. same_hashes.
  - (* PERSIST *) unfold persist. same_hashes.
Qed.

(** The sweeper only deletes whole keys. *)
Lemma sweep_no_empty_hash (now : Z) (ks : Keyspace) :
  no_empty_hash ks -> no_empty_hash (sweep now ks).
Proof.
  intros Hinv hash hashMap. unfold sweep. cbn [HSETs].
  intros Hl. apply lookup_difference_Some in Hl as [Hl _]. exact (Hinv _ _ Hl).
Qed.

Lemma range_pairs_non_empty (hashMap : gmap string string) :
  hashMap <> ∅ -> range_pairs hashMap <> [].
Proof.
  intros Hne. unfold range_pairs.
  destruct (map_to_list hashMap) as [| kv l] eqn:Hl.
  - apply map_to_list_empty_iff in Hl. contradiction.
  - discriminate.
Qed.

(** C10.  In every keyspace reached from the empty one by calls of the
    handlers of the routing table, with any arguments, every hash of the
    hash store has at least one field; so HLEN on a hash that is present
    returns a positive integer and HGETALL on it returns a non-empty
    array. *)
Theorem reachable_no_empty_hash (ks : Keyspace) :
  reachable ks ->
  no_empty_hash ks /\
  (forall hash hashMap now,
     HSETs ks !! hash = Some hashMap ->
     (exists n, hlen [BulkV hash] now ks = (IntegerV n, ks) /\ 0 < n) /\
     (exists values,
        hgetall [BulkV hash] now ks = (ArrayV values, ks) /\ values <> [])).
Proof.
  intros Hreach.
  assert (Hinv : no_empty_hash ks).
  { induction Hreach as [| ks command handler args now _ IH Hh].
    - intros hash hashMap Hl. cbn in Hl. rewrite lookup_empty in Hl. discriminate Hl.
    - exact (handler_no_empty_hash command handler args now ks Hh IH). }
  split; [exact Hinv |].
  intros hash hashMap now Hl. pose proof (Hinv hash hashMap Hl) as Hne. split.
  - exists (Z.of_nat (size hashMap)). split.
    + rewrite hlen_factors. unfold hlen_result.
      cbn [length Nat.eqb negb arg nth bulk BulkV]. rewrite Hl. reflexivity.
    + assert (size hashMap <> 0%nat) by (intros Hz; apply map_size_empty_inv in Hz; contradiction).
      lia.
  - exists (range_pairs hashMap). split.
    + rewrite hgetall_factors. unfold hgetall_result.
      cbn [length Nat.eqb negb arg nth bulk BulkV]. rewrite Hl. reflexivity.
    + apply range_pairs_non_empty. exact Hne.
Qed.

Lemma after_three_calls_reachable : reachable after_three_calls.
Proof.
  unfold after_three_calls.
  apply (reachable_call _ "HDEL" hdel); [| reflexivity].
  apply (reachable_call _ "HSET" hset); [| reflexivity].
  apply (reachable_call _ "HSET" hset); [| reflexivity].
  apply reachable_empty.
Qed.

Lemma reachable_no_empty_hash_witness : no_empty_hash after_three_calls.
Proof.
  apply (reachable_no_empty_hash after_three_calls).
  apply after_three_calls_reachable.
Defined.

(** * Further properties of the handlers *)

(** ** Error replies *)

(** X1.  Every handler of the routing table except [ping] and [flushall],
    called with a number of arguments it does not accept, leaves the
    keyspace as it is and replies with an error whose text is "ERR wrong
    number of arguments for '<name>' command", with the name in lower case;
    the one exception is [set] with three arguments or more than four, whose
    text is "ERR syntax error". *)
Theorem arity_error_text (command : string) (handler : Handler) (args : list Value)
    (now : Z) (ks : Keyspace) :
  Handlers command = Some handler ->
  command <> "PING" -> command <> "FLUSHALL" ->
  accepted_arity command (length args) = false ->
  handler args now ks =
    (ErrorV (if String.eqb command "SET" && (2 <=? length args)%nat
             then "ERR syntax error" else arity_message command), ks).
Proof.
  unfold Handlers, Handlers_table, assoc.
  intros Hh Hping Hflush Har.
  repeat match type of Hh with
  | context [String.eqb command ?s] =>
      destruct (String.eqb_spec command s) as [-> | _]
  end; try discriminate Hh; try congruence;
  injection Hh as <-;
  split_args args; try discriminate Har; reflexivity.
Qed.

Lemma arity_error_text_witness :
  hset [BulkV "h"; BulkV "f"] 1700000000 C1_store
  = (ErrorV "ERR wrong number of arguments for 'hset' command", C1_store).
Proof.
  apply (arity_error_text "HSET" hset [BulkV "h"; BulkV "f"] 1700000000 C1_store);
    [reflexivity | discriminate | discriminate | reflexivity].
Defined.

(** ** Strings: SET, GET and the lazy expiry *)

(** X2.  A GET on a key whose expiry instant has passed answers null and
    removes the key from the string store, the hash store and the expiration
    index, leaving every other key of the three maps as it was; afterwards
    TTL on the key answers -2 and HLEN answers 0. *)
Theorem get_lazy_expiry (k : Value) (now now' expireAt : Z) (ks : Keyspace) :
  Expirations ks !! bulk k = Some expireAt -> expireAt < now ->
  let ks' := snd (get [k] now ks) in
  fst (get [k] now ks) = NullV /\
  SETs ks' !! bulk k = None /\ HSETs ks' !! bulk k = None /\
  Expirations ks' !! bulk k = None /\
  (forall key, key <> bulk k ->
     SETs ks' !! key = SETs ks !! key /\ HSETs ks' !! key = HSETs ks !! key /\
     Expirations ks' !! key = Expirations ks !! key) /\
  ttl [k] now' ks' = (IntegerV (-2), ks') /\
  hlen [k] now' ks' = (IntegerV 0, ks').
Proof.
  intros He Hlt ks'.
  assert (Hget : get [k] now ks =
    (NullV, mkKeyspace (delete (bulk k) (SETs ks)) (delete (bulk k) (HSETs ks))
                       (delete (bulk k) (Expirations ks)))).
  { unfold get, checkAndDeleteIfExpired. cbn [length Nat.eqb negb arg nth].
    rewrite He. cbn [comma_ok andb].
    destruct (Z.gtb_spec now expireAt); [reflexivity | lia]. }
  subst ks'. rewrite Hget. cbn [fst snd].
  set (ks1 := mkKeyspace _ _ _).
  assert (Hs : SETs ks1 !! bulk k = None) by apply lookup_delete_eq.
  assert (Hh : HSETs ks1 !! bulk k = None) by apply lookup_delete_eq.
  assert (Hx : Expirations ks1 !! bulk k = None) by apply lookup_delete_eq.
  split; [reflexivity |]. do 3 (split; [assumption |]).
  split; [| split].
  - intros key Hne. subst ks1. cbn [SETs HSETs Expirations].
    rewrite !lookup_delete_ne by congruence. repeat split.
  - rewrite ttl_unfold, exists_neither by assumption. reflexivity.
  - rewrite hlen_factors. unfold hlen_result.
    cbn [length Nat.eqb negb arg nth]. rewrite Hh. reflexivity.
Qed.

Lemma get_lazy_expiry_witness :
  fst (get [BulkV "h"] 1800000000 expired_hash) = NullV /\
  HSETs (snd (get [BulkV "h"] 1800000000 expired_hash)) !! "h" = None.
Proof.
  destruct (get_lazy_expiry (BulkV "h") 1800000000 1800000000 1700000000 expired_hash)
    as (H1 & _ & H2 & _); [reflexivity | lia |].
  split; [exact H1 | exact H2].
Defined.

(** X3.  SET key val followed by GET key, at any two clock readings, reads
    back val as a bulk and changes nothing: a plain SET leaves no expiry
    that the read could act on. *)
Theorem set_get_roundtrip (k v : Value) (now now' : Z) (ks : Keyspace) :
  get [k] now' (snd (set [k; v] now ks))
  = (BulkV (bulk v), snd (set [k; v] now ks)).
Proof.
  rewrite set_plain. cbn [snd].
  unfold get, checkAndDeleteIfExpired. cbn [length Nat.eqb negb arg nth].
  cbn [SETs HSETs Expirations].
  rewrite lookup_delete_eq, lookup_insert_eq. reflexivity.
Qed.

(** X4.  The life of a key written by SET key val EX secs at clock [now],
    when [now + n] fits in 64 bits ([n] the value of secs): at a later
    reading [now'] up to and including the expiry instant, TTL answers the
    seconds left, [now + n - now'], and GET answers val, neither changing
    anything; at a reading past the instant, TTL answers -2 and GET answers
    null. *)
Theorem set_EX_timeline (k v opt secs : Value) (n now now' : Z) (ks : Keyspace) :
  strings.ToLower (bulk opt) = "ex" ->
  strconv.ParseInt (bulk secs) = Some n -> 0 < n ->
  0 <= now -> now + n <= Int64.MaxInt64 -> now <= now' <= Int64.MaxInt64 ->
  let ks1 := snd (set [k; v; opt; secs] now ks) in
  (now' <= now + n ->
     ttl [k] now' ks1 = (IntegerV (now + n - now'), ks1) /\
     get [k] now' ks1 = (BulkV (bulk v), ks1)) /\
  (now + n < now' ->
     ttl [k] now' ks1 = (IntegerV (-2), ks1) /\
     fst (get [k] now' ks1) = NullV /\
     SETs (snd (get [k] now' ks1)) !! bulk k = None).
Proof.
  intros Hopt Hsecs Hn Hnow Hmax Hlater ks1. subst ks1.
  rewrite (set_with_EX k v opt secs n now ks Hopt Hsecs Hn). cbn [snd].
  unfold Int64.add. rewrite (wrap64_id (now + n))
    by (unfold Int64.in_range, Int64.MinInt64, Int64.MaxInt64 in *; lia).
  assert (Hsub : Int64.sub (now + n) now' = now + n - now').
  { unfold Int64.sub. apply wrap64_id.
    unfold Int64.in_range, Int64.MinInt64, Int64.MaxInt64 in *. lia. }
  set (ks1 := mkKeyspace _ _ _).
  assert (Hs : SETs ks1 !! bulk k = Some (bulk v)) by apply lookup_insert_eq.
  assert (Hx : Expirations ks1 !! bulk k = Some (now + n)) by apply lookup_insert_eq.
  rewrite ttl_unfold, exists_either by (left; rewrite Hs; eexists; reflexivity).
  rewrite Hx, Hsub.
  unfold get, checkAndDeleteIfExpired. cbn [length Nat.eqb negb arg nth].
  rewrite Hx, Hs. cbn [comma_ok andb].
  split; intros Hcmp.
  - destruct (Z.ltb_spec (now + n - now') 0); [lia |].
    destruct (Z.gtb_spec now' (now + n)); [lia |]. split; reflexivity.
  - destruct (Z.ltb_spec (now + n - now') 0); [| lia].
    destruct (Z.gtb_spec now' (now + n)); [| lia].
    cbn [fst snd SETs]. rewrite lookup_delete_eq. repeat split.
Qed.

Lemma set_EX_timeline_witness :
  ttl [BulkV "k"] 1700000020
      (snd (set [BulkV "k"; BulkV "v"; BulkV "ex"; BulkV "60"] 1700000000 empty_keyspace))
  = (IntegerV 40,
     snd (set [BulkV "k"; BulkV "v"; BulkV "ex"; BulkV "60"] 1700000000 empty_keyspace)).
Proof.
  assert (Hmax : 1700000000 + 60 <= Int64.MaxInt64) by (unfold Int64.MaxInt64; lia).
  assert (Hlater : 1700000000 <= 1700000020 <= Int64.MaxInt64)
    by (unfold Int64.MaxInt64; lia).
  pose proof (set_EX_timeline (BulkV "k") (BulkV "v") (BulkV "ex") (BulkV "60")
                60 1700000000 1700000020 empty_keyspace eq_refl eq_refl
                ltac:(lia) ltac:(lia) Hmax Hlater) as [H _].
  destruct H as [H _]; [lia | exact H].
Defined.

(** ** Hashes: HSET, HGET, HLEN and HGETALL *)

(** X5.  HSET hash field val followed by HGET hash field reads back val;
    HGET of any other field, of this or of another hash, answers what it
    answered before the HSET. *)
Theorem hset_hget_roundtrip (h f v : Value) (now now' : Z) (ks : Keyspace) :
  let ks1 := snd (hset [h; f; v] now ks) in
  hget [h; f] now' ks1 = (BulkV (bulk v), ks1) /\
  (forall h' f' : Value,
     bulk h' <> bulk h \/ bulk f' <> bulk f ->
     fst (hget [h'; f'] now' ks1) = fst (hget [h'; f'] now' ks)).
Proof.
  intros ks1. subst ks1. rewrite hset_HSETs. cbn [snd].
  set (ks1 := mkKeyspace _ _ _). split.
  - rewrite hget_factors. unfold hget_result. cbn [length Nat.eqb negb arg nth].
    subst ks1. cbn [HSETs]. rewrite !lookup_insert_eq. reflexivity.
  - intros h' f' Hne. rewrite !hget_factors. cbn [fst]. unfold hget_result.
    cbn [length Nat.eqb negb arg nth]. subst ks1. cbn [HSETs].
    destruct (decide (bulk h = bulk h')) as [Heq | Hh].
    + rewrite <- Heq. rewrite lookup_insert_eq.
      assert (Hf : bulk f <> bulk f') by (destruct Hne; congruence).
      rewrite lookup_insert_ne by exact Hf.
      destruct (HSETs ks !! bulk h) as [m |]; cbn [default]; [reflexivity |].
      rewrite lookup_empty. reflexivity.
    + rewrite lookup_insert_ne by exact Hh. reflexivity.
Qed.

Lemma hset_hget_roundtrip_witness :
  fst (hget [BulkV "h"; BulkV "g"] 2
         (snd (hset [BulkV "h"; BulkV "f"; BulkV "v"] 1 plain_hash)))
  = fst (hget [BulkV "h"; BulkV "g"] 2 plain_hash).
Proof.
  destruct (hset_hget_roundtrip (BulkV "h") (BulkV "f") (BulkV "v") 1 2 plain_hash)
    as [_ H].
  apply (H (BulkV "h") (BulkV "g")). right. discriminate.
Defined.

(** X6.  HSET makes HLEN of the hash grow by one when the field is new
    (from 0 to 1 when the hash itself is new) and leaves it as it was when
    the field is overwritten. *)
Theorem hset_hlen (h f v : Value) (now now' : Z) (ks : Keyspace) :
  let m := default ∅ (HSETs ks !! bulk h) in
  let ks1 := snd (hset [h; f; v] now ks) in
  fst (hlen [h] now' ks) = IntegerV (Z.of_nat (size m)) /\
  fst (hlen [h] now' ks1) =
    IntegerV (match m !! bulk f with
              | Some _ => Z.of_nat (size m)
              | None => Z.of_nat (size m) + 1
              end).
Proof.
  intros m ks1. subst ks1. rewrite hset_HSETs. cbn [snd].
  rewrite !hlen_factors. unfold hlen_result. cbn [fst length Nat.eqb negb arg nth HSETs].
  rewrite lookup_insert_eq. fold m. split.
  - subst m. destruct (HSETs ks !! bulk h); [reflexivity |].
    cbn [default]. rewrite map_size_empty. reflexivity.
  - rewrite map_size_insert.
    destruct (m !! bulk f); [reflexivity |]. f_equal. lia.
Qed.

Lemma range_pairs_length (m : gmap string string) :
  length (range_pairs m) = (2 * size m)%nat.
Proof.
  unfold range_pairs. rewrite <- (length_map_to_list m).
  induction (map_to_list m) as [| kv l IH]; [reflexivity |].
  cbn [flat_map length app]. rewrite IH. lia.
Qed.

Lemma range_pairs_adjacent (m : gmap string string) (f v : string) :
  m !! f = Some v ->
  exists i, range_pairs m !! (2 * i)%nat = Some (BulkV f) /\
            range_pairs m !! (2 * i + 1)%nat = Some (BulkV v).
Proof.
  intros Hf. apply elem_of_map_to_list in Hf. unfold range_pairs.
  induction (map_to_list m) as [| kv l IH]; [inversion Hf |].
  apply elem_of_cons in Hf as [<- | Hin].
  - exists 0%nat. split; reflexivity.
  - destruct (IH Hin) as (i & H1 & H2). exists (S i).
    cbn [flat_map].
    replace (2 * S i)%nat with (S (S (2 * i))) by lia.
    replace (S (S (2 * i)) + 1)%nat with (S (S (2 * i + 1))) by lia.
    split; assumption.
Qed.

(** X7.  On a hash that is present, HGETALL returns an array of twice as
    many elements as HLEN counts, and every field of the hash occurs in it
    at an even position, as a bulk, directly followed by its value. *)
Theorem hgetall_hlen (h : Value) (now now' : Z) (ks : Keyspace)
    (m : gmap string string) :
  HSETs ks !! bulk h = Some m ->
  exists values,
    hgetall [h] now ks = (ArrayV values, ks) /\
    Z.of_nat (length values) = 2 * num (fst (hlen [h] now' ks)) /\
    (forall f v, m !! f = Some v ->
       exists i, values !! (2 * i)%nat = Some (BulkV f) /\
                 values !! (2 * i + 1)%nat = Some (BulkV v)).
Proof.
  intros Hm. exists (range_pairs m).
  rewrite hgetall_factors, hlen_factors. unfold hgetall_result, hlen_result.
  cbn [fst length Nat.eqb negb arg nth]. rewrite Hm. cbn [num IntegerV].
  split; [reflexivity |]. split.
  - rewrite range_pairs_length. lia.
  - intros f v. apply range_pairs_adjacent.
Qed.

Lemma hgetall_hlen_witness :
  exists values,
    hgetall [BulkV "h"] 1 plain_hash = (ArrayV values, plain_hash) /\
    Z.of_nat (length values) = 2 * num (fst (hlen [BulkV "h"] 2 plain_hash)).
Proof.
  destruct (hgetall_hlen (BulkV "h") 1 2 plain_hash {["f" := "v"]} eq_refl)
    as (values & H1 & H2 & _).
  exists values. split; assumption.
Defined.

(** X8.  Nothing keeps a key from living in both stores: after SET key val
    and HSET key field w, GET key answers val and HGET key field answers w;
    a DEL key then removes the key from both stores at once. *)
Theorem dual_occupancy (k v f w : Value) (now1 now2 now3 now4 now5 : Z) (ks : Keyspace) :
  let ks2 := snd (hset [k; f; w] now2 (snd (set [k; v] now1 ks))) in
  get [k] now3 ks2 = (BulkV (bulk v), ks2) /\
  hget [k; f] now4 ks2 = (BulkV (bulk w), ks2) /\
  SETs (snd (del [k] now5 ks2)) !! bulk k = None /\
  HSETs (snd (del [k] now5 ks2)) !! bulk k = None.
Proof.
  intros ks2. subst ks2. rewrite set_plain, hset_HSETs. cbn [snd SETs HSETs Expirations].
  set (ks2 := mkKeyspace _ _ _).
  assert (Hs : SETs ks2 !! bulk k = Some (bulk v)) by apply lookup_insert_eq.
  assert (Hx : Expirations ks2 !! bulk k = None) by apply lookup_delete_eq.
  split; [| split; [| split]].
  - unfold get, checkAndDeleteIfExpired. cbn [length Nat.eqb negb arg nth].
    rewrite Hx, Hs. reflexivity.
  - rewrite hget_factors. unfold hget_result. cbn [length Nat.eqb negb arg nth].
    subst ks2. cbn [HSETs]. rewrite !lookup_insert_eq. reflexivity.
  - apply lookup_delete_eq.
  - apply lookup_delete_eq.
Qed.

(** ** DEL, PERSIST and the expiry of a key *)

Lemma persist_unfold (k : Value) (now : Z) (ks : Keyspace) :
  persist [k] now ks =
    if negb (bool_decide (is_Some (SETs ks !! bulk k)))
       && negb (bool_decide (is_Some (HSETs ks !! bulk k)))
    then (IntegerV 0, ks)
    else match Expirations ks !! bulk k with
         | None => (IntegerV 0, ks)
         | Some _ =>
             (IntegerV 1,
              mkKeyspace (SETs ks) (HSETs ks) (delete (bulk k) (Expirations ks)))
         end.
Proof. reflexivity. Qed.

Lemma exists_either_inv (key : string) (ks : Keyspace) :
  negb (bool_decide (is_Some (SETs ks !! key)))
  && negb (bool_decide (is_Some (HSETs ks !! key))) = false ->
  is_Some (SETs ks !! key) \/ is_Some (HSETs ks !! key).
Proof.
  intros Hb. apply andb_false_iff in Hb as [Hb | Hb];
    apply negb_false_iff, bool_decide_eq_true_1 in Hb; [left | right]; exact Hb.
Qed.

(** X9.  DEL key removes the key from the string store and from the hash
    store and touches nothing else: the other keys of both stores stay, and
    so does the whole expiration index, the entry of the deleted key
    included.  On the keyspace it leaves, TTL key answers -2, PERSIST key
    answers 0 and EXPIRE key with valid seconds answers 0, none of them
    changing anything. *)
Theorem del_spec (k secs : Value) (n now now' : Z) (ks : Keyspace) :
  strconv.ParseInt (bulk secs) = Some n -> 0 < n ->
  let ks' := snd (del [k] now ks) in
  fst (del [k] now ks) = StringV "OK" /\
  SETs ks' !! bulk k = None /\ HSETs ks' !! bulk k = None /\
  Expirations ks' = Expirations ks /\
  (forall key, key <> bulk k ->
     SETs ks' !! key = SETs ks !! key /\ HSETs ks' !! key = HSETs ks !! key) /\
  ttl [k] now' ks' = (IntegerV (-2), ks') /\
  persist [k] now' ks' = (IntegerV 0, ks') /\
  expire [k; secs] now' ks' = (IntegerV 0, ks').
Proof.
  intros Hsecs Hn ks'. subst ks'. unfold del.
  cbn [length Nat.eqb negb arg nth fst snd].
  set (ks' := mkKeyspace _ _ _).
  assert (Hs : SETs ks' !! bulk k = None) by apply lookup_delete_eq.
  assert (Hh : HSETs ks' !! bulk k = None) by apply lookup_delete_eq.
  split; [reflexivity |]. do 2 (split; [assumption |]).
  split; [reflexivity |]. split; [| split; [| split]].
  - intros key Hne. subst ks'. cbn [SETs HSETs].
    rewrite !lookup_delete_ne by congruence. split; reflexivity.
  - rewrite ttl_unfold, exists_neither by assumption. reflexivity.
  - rewrite persist_unfold, exists_neither by assumption. reflexivity.
  - rewrite (expire_valid k secs n now' ks' Hsecs Hn), Hs, Hh.
    rewrite !bool_decide_eq_false_2 by (intros [? ?]; discriminate).
    reflexivity.
Qed.

Lemma del_spec_witness :
  ttl [BulkV "k"] 1700000001 (snd (del [BulkV "k"] 1700000000 C1_store))
  = (IntegerV (-2), snd (del [BulkV "k"] 1700000000 C1_store)).
Proof.
  pose proof (del_spec (BulkV "k") (BulkV "10") 10 1700000000 1700000001 C1_store
                eq_refl ltac:(lia)) as (_ & _ & _ & _ & _ & H & _).
  exact H.
Defined.

(** X10.  An expiry outlives DEL: when a key with an expiry is deleted and
    then created again by HSET, the new hash carries the old expiry.  TTL
    reports the time left to the old instant instead of -1, and once that
    instant has passed a GET on the key removes the new hash. *)
Theorem expiry_survives_del (k f v : Value) (expireAt now1 now2 now3 : Z) (ks : Keyspace) :
  Expirations ks !! bulk k = Some expireAt ->
  let ks2 := snd (hset [k; f; v] now2 (snd (del [k] now1 ks))) in
  Expirations ks2 !! bulk k = Some expireAt /\
  HSETs ks2 !! bulk k = Some {[bulk f := bulk v]} /\
  ttl [k] now3 ks2 =
    (IntegerV (if Int64.sub expireAt now3 <? 0 then -2 else Int64.sub expireAt now3),
     ks2) /\
  (expireAt < now3 ->
     fst (get [k] now3 ks2) = NullV /\ HSETs (snd (get [k] now3 ks2)) !! bulk k = None).
Proof.
  intros He ks2. subst ks2. unfold del. cbn [length Nat.eqb negb arg nth snd].
  rewrite hset_HSETs. cbn [snd SETs HSETs Expirations].
  rewrite lookup_delete_eq. cbn [default]. rewrite insert_delete_eq.
  set (ks2 := mkKeyspace _ _ _).
  assert (Hx : Expirations ks2 !! bulk k = Some expireAt) by exact He.
  assert (Hh : HSETs ks2 !! bulk k = Some {[bulk f := bulk v]}).
  { subst ks2. cbn [HSETs]. rewrite lookup_insert_eq. reflexivity. }
  split; [exact Hx |]. split; [exact Hh |]. split.
  - rewrite ttl_unfold, exists_either by (right; rewrite Hh; eexists; reflexivity).
    rewrite Hx. destruct (Int64.sub expireAt now3 <? 0); reflexivity.
  - intros Hlt. change (get [k] now3 ks2) with (get [BulkV (bulk k)] now3 ks2).
    rewrite (get_expired (bulk k) now3 expireAt ks2 Hx Hlt).
    cbn [fst snd HSETs]. rewrite lookup_delete_eq. split; reflexivity.
Qed.

Lemma expiry_survives_del_witness :
  ttl [BulkV "k"] 1700000002
      (snd (hset [BulkV "k"; BulkV "f"; BulkV "w"] 1700000001
              (snd (del [BulkV "k"] 1700000000 C1_store))))
  = (IntegerV 299999998,
     snd (hset [BulkV "k"; BulkV "f"; BulkV "w"] 1700000001
            (snd (del [BulkV "k"] 1700000000 C1_store)))).
Proof.
  pose proof (expiry_survives_del (BulkV "k") (BulkV "f") (BulkV "w") 2000000000
                1700000000 1700000001 1700000002 C1_store eq_refl)
    as (_ & _ & H & _).
  exact H.
Defined.

(** X11.  PERSIST key answers 1 exactly when the key is in the string store
    or the hash store and has an expiry; it then removes that expiry and
    nothing else, so that TTL key answers -1 afterwards.  In every other
    case it answers 0 and changes nothing. *)
Theorem persist_spec (k : Value) (now now' : Z) (ks : Keyspace) :
  ((is_Some (SETs ks !! bulk k) \/ is_Some (HSETs ks !! bulk k)) /\
   is_Some (Expirations ks !! bulk k) ->
     let ks' := snd (persist [k] now ks) in
     fst (persist [k] now ks) = IntegerV 1 /\
     ks' = mkKeyspace (SETs ks) (HSETs ks) (delete (bulk k) (Expirations ks)) /\
     ttl [k] now' ks' = (IntegerV (-1), ks')) /\
  (~ ((is_Some (SETs ks !! bulk k) \/ is_Some (HSETs ks !! bulk k)) /\
      is_Some (Expirations ks !! bulk k)) ->
     persist [k] now ks = (IntegerV 0, ks)).
Proof.
  rewrite persist_unfold. split.
  - intros [Hex [e He]] ks'. subst ks'.
    rewrite exists_either by assumption. rewrite He. cbn [fst snd].
    split; [reflexivity |]. split; [reflexivity |].
    set (ks' := mkKeyspace _ _ _).
    rewrite ttl_unfold, exists_either by exact Hex.
    subst ks'. cbn [Expirations]. rewrite lookup_delete_eq. reflexivity.
  - intros Hnot.
    destruct (negb (bool_decide (is_Some (SETs ks !! bulk k)))
              && negb (bool_decide (is_Some (HSETs ks !! bulk k)))) eqn:Hb;
      [reflexivity |].
    destruct (Expirations ks !! bulk k) as [e |] eqn:He; [| reflexivity].
    exfalso. apply Hnot. split; [| eexists; reflexivity].
    apply exists_either_inv, Hb.
Qed.

Lemma persist_spec_witness :
  fst (persist [BulkV "k"] 1700000000 C1_store) = IntegerV 1 /\
  persist [BulkV "h"] 1700000000 C1_store = (IntegerV 0, C1_store).
Proof.
  destruct (persist_spec (BulkV "k") 1700000000 1700000000 C1_store) as [H1 _].
  destruct (persist_spec (BulkV "h") 1700000000 1700000000 C1_store) as [_ H2].
  split.
  - apply H1. split; [left |]; eexists; reflexivity.
  - apply H2. intros [_ [e He]]. discriminate He.
Defined.

(** X12.  EXPIRE followed by PERSIST is undone without a trace: on a key
    that exists and has no expiry, EXPIRE key secs answers 1, the PERSIST
    key that follows answers 1, and the keyspace is again what it was
    before the two commands. *)
Theorem expire_persist_undo (k secs : Value) (n now now' : Z) (ks : Keyspace) :
  strconv.ParseInt (bulk secs) = Some n -> 0 < n ->
  is_Some (SETs ks !! bulk k) \/ is_Some (HSETs ks !! bulk k) ->
  Expirations ks !! bulk k = None ->
  fst (expire [k; secs] now ks) = IntegerV 1 /\
  persist [k] now' (snd (expire [k; secs] now ks)) = (IntegerV 1, ks).
Proof.
  intros Hsecs Hn Hex He.
  rewrite (expire_valid k secs n now ks Hsecs Hn).
  pose proof (exists_either (bulk k) ks Hex) as Hb.
  rewrite <- negb_orb in Hb. apply negb_false_iff in Hb. rewrite Hb.
  cbn [fst snd]. split; [reflexivity |].
  rewrite persist_unfold. cbn [SETs HSETs Expirations].
  rewrite <- negb_orb, Hb. cbn [negb].
  rewrite lookup_insert_eq, delete_insert_eq, (delete_id _ _ He).
  destruct ks; reflexivity.
Qed.

Lemma expire_persist_undo_witness :
  persist [BulkV "h"] 1700000005
    (snd (expire [BulkV "h"; BulkV "60"] 1700000000 plain_hash))
  = (IntegerV 1, plain_hash).
Proof.
  apply (expire_persist_undo (BulkV "h") (BulkV "60") 60 1700000000 1700000005
           plain_hash eq_refl ltac:(lia)).
  - right. eexists. reflexivity.
  - reflexivity.
Defined.

(** ** INCR and DECR undo each other *)

Lemma wrap64_shift (z k : Z) : Int64.wrap64 (z + k * 2 ^ 64) = Int64.wrap64 z.
Proof.
  unfold Int64.wrap64.
  replace (z + k * 2 ^ 64 + 2 ^ 63) with (z + 2 ^ 63 + k * 2 ^ 64) by lia.
  rewrite Z.mod_add by lia. reflexivity.
Qed.

Lemma wrap64_eq (z : Z) : exists k, Int64.wrap64 z = z + k * 2 ^ 64.
Proof.
  exists (- ((z + 2 ^ 63) / 2 ^ 64)). unfold Int64.wrap64.
  pose proof (Z.div_mod (z + 2 ^ 63) (2 ^ 64)). lia.
Qed.

Lemma sub_add_cancel (n : Z) :
  Int64.in_range n -> Int64.sub (Int64.add n 1) 1 = n /\ Int64.add (Int64.sub n 1) 1 = n.
Proof.
  intros Hn. unfold Int64.add, Int64.sub. split.
  - destruct (wrap64_eq (n + 1)) as [k ->].
    replace (n + 1 + k * 2 ^ 64 - 1) with (n + k * 2 ^ 64) by lia.
    rewrite wrap64_shift. apply wrap64_id, Hn.
  - destruct (wrap64_eq (n - 1)) as [k ->].
    replace (n - 1 + k * 2 ^ 64 + 1) with (n + k * 2 ^ 64) by lia.
    rewrite wrap64_shift. apply wrap64_id, Hn.
Qed.

(** X13.  On a key whose stored value [Atoi] reads as [n], INCR followed by
    DECR, and DECR followed by INCR, end by returning [n] and storing the
    decimal text of [n]; this holds at the two ends of the 64-bit range as
    well, where the step in between wraps around. *)
Theorem incr_decr_inverse (key value : string) (n now now' : Z) (ks : Keyspace) :
  SETs ks !! key = Some value -> strconv.Atoi value = Some n ->
  decr [BulkV key] now' (snd (incr [BulkV key] now ks))
    = (IntegerV n,
       mkKeyspace (<[key := strconv.Itoa n]> (SETs ks)) (HSETs ks) (Expirations ks))
  /\ incr [BulkV key] now' (snd (decr [BulkV key] now ks))
    = (IntegerV n,
       mkKeyspace (<[key := strconv.Itoa n]> (SETs ks)) (HSETs ks) (Expirations ks)).
Proof.
  intros Hs Hn.
  pose proof (ParseInt_in_range value n Hn) as Hr.
  destruct (sub_add_cancel n Hr) as [Hsa Has].
  rewrite (incr_number key value n now ks Hs Hn),
          (decr_number key value n now ks Hs Hn). cbn [snd]. split.
  - erewrite decr_number;
      [| apply lookup_insert_eq | apply Atoi_Itoa, wrap64_in_range].
    cbn [SETs HSETs Expirations]. rewrite Hsa, insert_insert_eq. reflexivity.
  - erewrite incr_number;
      [| apply lookup_insert_eq | apply Atoi_Itoa, wrap64_in_range].
    cbn [SETs HSETs Expirations]. rewrite Has, insert_insert_eq. reflexivity.
Qed.

Lemma incr_decr_inverse_witness :
  decr [BulkV "k"] 2
    (snd (incr [BulkV "k"] 1 (mkKeyspace {["k" := "9223372036854775807"]} ∅ ∅)))
  = (IntegerV 9223372036854775807, mkKeyspace {["k" := "9223372036854775807"]} ∅ ∅).
Proof.
  assert (Hs : SETs (mkKeyspace {["k" := "9223372036854775807"]} ∅ ∅) !! "k"
               = Some "9223372036854775807") by (vm_compute; reflexivity).
  assert (Hn : strconv.Atoi "9223372036854775807" = Some 9223372036854775807)
    by (vm_compute; reflexivity).
  destruct (incr_decr_inverse "k" "9223372036854775807" 9223372036854775807 1 2
              (mkKeyspace {["k" := "9223372036854775807"]} ∅ ∅) Hs Hn)
    as [H _].
  rewrite H. vm_compute. reflexivity.
Defined.

(** ** The sweeper *)

Lemma sweep_dead (now : Z) (ks : Keyspace) (key : string) :
  filter (fun kv : string * Z => now > snd kv) (Expirations ks) !! key
  = if passed now ks key then Expirations ks !! key else None.
Proof.
  unfold passed. rewrite map_lookup_filter.
  destruct (Expirations ks !! key) as [e |]; [| reflexivity].
  cbn. destruct (Z.gtb_spec now e); case_guard; cbn; try reflexivity; lia.
Qed.

Lemma sweep_lookup (now : Z) (ks : Keyspace) (key : string) :
  SETs (sweep now ks) !! key = (if passed now ks key then None else SETs ks !! key) /\
  HSETs (sweep now ks) !! key = (if passed now ks key then None else HSETs ks !! key) /\
  Expirations (sweep now ks) !! key
    = (if passed now ks key then None else Expirations ks !! key).
Proof.
  unfold sweep. cbn [SETs HSETs Expirations].
  rewrite !lookup_difference, !lookup_fmap, sweep_dead.
  unfold passed.
  destruct (Expirations ks !! key) as [e |]; [| repeat split].
  destruct (now >? e); repeat split.
Qed.

Lemma Keyspace_eq (ks1 ks2 : Keyspace) :
  (forall key, SETs ks1 !! key = SETs ks2 !! key) ->
  (forall key, HSETs ks1 !! key = HSETs ks2 !! key) ->
  (forall key, Expirations ks1 !! key = Expirations ks2 !! key) ->
  ks1 = ks2.
Proof.
  destruct ks1, ks2. cbn [SETs HSETs Expirations]. intros H1 H2 H3.
  f_equal; apply map_eq; assumption.
Qed.

Lemma passed_sweep (now : Z) (ks : Keyspace) (key : string) :
  passed now (sweep now ks) key = false.
Proof.
  unfold passed at 1. destruct (sweep_lookup now ks key) as (_ & _ & ->).
  unfold passed. destruct (Expirations ks !! key) as [e |]; [| reflexivity].
  destruct (now >? e) eqn:Hg; [reflexivity | exact Hg].
Qed.

(** X14.  One pass of the expiry cleaner at clock [now] removes from the
    three maps exactly the keys whose expiry instant lies before [now]:
    such a key is afterwards in none of the maps, and every other key,
    with or without expiry, keeps its string, its hash and its expiry. *)
Theorem sweep_spec (now : Z) (ks : Keyspace) (key : string) :
  ((exists expireAt, Expirations ks !! key = Some expireAt /\ expireAt < now) ->
     SETs (sweep now ks) !! key = None /\ HSETs (sweep now ks) !! key = None /\
     Expirations (sweep now ks) !! key = None) /\
  (~ (exists expireAt, Expirations ks !! key = Some expireAt /\ expireAt < now) ->
     SETs (sweep now ks) !! key = SETs ks !! key /\
     HSETs (sweep now ks) !! key = HSETs ks !! key /\
     Expirations (sweep now ks) !! key = Expirations ks !! key).
Proof.
  destruct (sweep_lookup now ks key) as (-> & -> & ->). unfold passed. split.
  - intros (e & -> & Hlt). destruct (Z.gtb_spec now e); [repeat split | lia].
  - intros Hnot. destruct (Expirations ks !! key) as [e |]; [| repeat split].
    destruct (Z.gtb_spec now e); [| repeat split].
    exfalso. apply Hnot. exists e. split; [reflexivity | lia].
Qed.

Lemma sweep_spec_witness :
  HSETs (sweep 1800000000 expired_hash) !! "h" = None /\
  HSETs (sweep 1600000000 expired_hash) !! "h" = Some {["f" := "v"]}.
Proof.
  destruct (sweep_spec 1800000000 expired_hash "h") as [H1 _].
  destruct (sweep_spec 1600000000 expired_hash "h") as [_ H2].
  split.
  - apply H1. exists 1700000000. split; [reflexivity | lia].
  - destruct H2 as (_ & -> & _); [| reflexivity].
    intros (e & He & Hlt). change (Some 1700000000 = Some e) in He.
    injection He as <-. lia.
Defined.

(** X15.  A second pass of the cleaner at the same clock reading changes
    nothing, and after a pass a GET at that reading finds nothing left to
    expire: it returns the keyspace the pass produced. *)
Theorem sweep_settles (now : Z) (ks : Keyspace) (k : Value) :
  sweep now (sweep now ks) = sweep now ks /\
  snd (get [k] now (sweep now ks)) = sweep now ks.
Proof.
  split.
  - apply Keyspace_eq; intros key;
      destruct (sweep_lookup now (sweep now ks) key) as (H1 & H2 & H3);
      rewrite ?H1, ?H2, ?H3, passed_sweep; reflexivity.
  - pose proof (passed_sweep now ks (bulk k)) as Hp. unfold passed in Hp.
    unfold get, checkAndDeleteIfExpired. cbn [length Nat.eqb negb arg nth].
    destruct (Expirations (sweep now ks) !! bulk k) as [e |]; cbn [comma_ok andb].
    + rewrite Hp.
      destruct (SETs (sweep now ks) !! bulk k); [reflexivity |].
      destruct (HSETs (sweep now ks) !! bulk k); reflexivity.
    + destruct (SETs (sweep now ks) !! bulk k); [reflexivity |].
      destruct (HSETs (sweep now ks) !! bulk k); reflexivity.
Qed.

(** ** What the handlers leave alone *)

(** X16.  A command that [handleConnection] does not log changes neither
    the string store nor the hash store, unless it is GET; and unless it is
    GET, EXPIRE or PERSIST it changes nothing at all. *)
Theorem unlogged_keeps_data (command : string) (handler : Handler)
    (args : list Value) (now : Z) (ks : Keyspace) :
  Handlers command = Some handler -> logged command = false ->
  command <> "GET" ->
  SETs (snd (handler args now ks)) = SETs ks /\
  HSETs (snd (handler args now ks)) = HSETs ks /\
  (command <> "EXPIRE" -> command <> "PERSIST" -> snd (handler args now ks) = ks).
Proof.
  unfold Handlers, Handlers_table, assoc. intros Hh Hl Hget.
  repeat match type of Hh with
  | context [String.eqb command ?s] =>
      destruct (String.eqb_spec command s) as [-> | _]
  end; try discriminate Hh; try discriminate Hl; try congruence;
  injection Hh as <-.
  - (* PING *) unfold ping. destruct (length args =? 0)%nat; repeat split.
  - (* HGET *) rewrite hget_factors. repeat split.
  - (* HGETALL *) rewrite hgetall_factors. repeat split.
  - (* HLEN *) rewrite hlen_factors. repeat split.
  - (* INFO *) unfold info. destruct (negb (length args =? 0)%nat); repeat split.
  - (* EXPIRE *)
    unfold expire. destruct (negb (length args =? 2)%nat); [repeat split |].
    destruct (strconv.ParseInt (bulk (arg 1 args))) as [n |]; [| repeat split].
    destruct (n <=? 0); [repeat split |].
    destruct (negb _ && negb _); repeat split; congruence.
  - (* TTL *)
    unfold ttl. destruct (negb (length args =? 1)%nat); [repeat split |].
    destruct (comma_ok 0 (Expirations ks !! bulk (arg 0 args))) as [e ex].
    destruct (negb _ && negb _); [repeat split |].
    destruct (negb ex); [repeat split |].
    destruct (Int64.sub e now <? 0); repeat split.
  - (* PERSIST *)
    unfold persist. destruct (negb (length args =? 1)%nat); [repeat split |].
    destruct (negb _ && negb _); [repeat split |].
    destruct (Expirations ks !! bulk (arg 0 args)); repeat split; congruence.
Qed.

Lemma unlogged_keeps_data_witness :
  SETs (snd (expire [BulkV "k"; BulkV "60"] 1700000000 C1_store)) = SETs C1_store.
Proof.
  apply (unlogged_keeps_data "EXPIRE" expire [BulkV "k"; BulkV "60"] 1700000000
           C1_store); [reflexivity | reflexivity | discriminate].
Defined.

(** X17.  GET touches no key but its own: whatever the arguments, every
    other key keeps its string, its hash and its expiry; and GET changes
    the keyspace at all only when it answers null. *)
Theorem get_frame (args : list Value) (now : Z) (ks : Keyspace) :
  (forall key, key <> bulk (arg 0 args) ->
     SETs (snd (get args now ks)) !! key = SETs ks !! key /\
     HSETs (snd (get args now ks)) !! key = HSETs ks !! key /\
     Expirations (snd (get args now ks)) !! key = Expirations ks !! key) /\
  (fst (get args now ks) <> NullV -> snd (get args now ks) = ks).
Proof.
  unfold get. destruct (negb (length args =? 1)%nat); [repeat split |].
  unfold checkAndDeleteIfExpired.
  destruct (comma_ok 0 (Expirations ks !! bulk (arg 0 args))) as [e ex].
  destruct (ex && (now >? e)).
  - cbn [fst snd SETs HSETs Expirations]. split; [| congruence].
    intros key Hne. rewrite !lookup_delete_ne by congruence. repeat split.
  - destruct (SETs ks !! bulk (arg 0 args)); [repeat split |].
    destruct (HSETs ks !! bulk (arg 0 args)); [repeat split |].
    destruct ex; repeat split.
Qed.

Lemma get_frame_witness :
  SETs (snd (get [BulkV "h"] 1800000000
               (mkKeyspace {["k" := "v"]} ∅ {["h" := 1700000000]}))) !! "k"
  = Some "v".
Proof.
  destruct (get_frame [BulkV "h"] 1800000000
              (mkKeyspace {["k" := "v"]} ∅ {["h" := 1700000000]})) as [H _].
  destruct (H "k") as (-> & _); [discriminate | reflexivity].
Defined.

(** ** The log of a session and its replay *)

Lemma handleConnection_step_aof (value : Value) (now : Z) (srv : Server) :
  aof (snd (fst (handleConnection_step value now srv)))
  = (aof srv ++ (if is_logged_request value then [value] else []))%list.
Proof.
  unfold handleConnection_step, is_logged_request.
  destruct (String.eqb (typ value) "array"); cbn [negb orb andb];
    [| symmetry; apply app_nil_r].
  destruct (length (array value) =? 0)%nat; cbn [negb andb];
    [symmetry; apply app_nil_r |].
  fold (command_of value).
  destruct (Handlers (command_of value)) as [handler |] eqn:Hh.
  - destruct (handler (tail (array value)) now (keyspace srv)). cbn [fst snd aof].
    destruct (logged (command_of value)); [reflexivity | symmetry; apply app_nil_r].
  - cbn [fst snd].
    destruct (logged (command_of value)) eqn:Hl; [| symmetry; apply app_nil_r].
    destruct (logged_handler _ Hl) as [h Hh']. congruence.
Qed.

Lemma handleConnection_aof (reqs : list (Z * Value)) :
  forall srv,
  aof (handleConnection reqs srv)
  = (aof srv ++ List.filter is_logged_request (map snd reqs))%list.
Proof.
  induction reqs as [| [now value] reqs IH]; intros srv; cbn [handleConnection].
  - symmetry. apply app_nil_r.
  - rewrite IH, handleConnection_step_aof. cbn [map snd List.filter].
    rewrite <- app_assoc. destruct (is_logged_request value); reflexivity.
Qed.



Lemma aof_Read_total (log : Aof) (tick : nat -> Z) :
  forall i ks,
  Forall (fun v => array v <> []) log ->
  exists ks', aof_Read log tick i ks = Some ks'.
Proof.
  induction log as [| v log IH]; intros i ks Hlog; cbn [aof_Read]; [eauto |].
  inversion Hlog as [| ? ? Hv Hrest]; subst.
  unfold replay_apply. destruct (array v) as [| v0 args]; [congruence |].
  destruct (Handlers (strings.ToUpper (bulk v0))); apply IH; exact Hrest.
Qed.

Lemma is_logged_request_array (value : Value) :
  is_logged_request value = true ->
  array value <> [] /\ logged (command_of value) = true.
Proof.
  unfold is_logged_request. intros H.
  apply andb_true_iff in H as [H Hl]. apply andb_true_iff in H as [_ Hlen].
  split; [| exact Hl]. intros Hnil. rewrite Hnil in Hlen. discriminate Hlen.
Qed.

(** X19.  Replay cannot hit the index panic of its callback on a log that
    sessions have written: starting from a log whose entries are non-empty
    arrays, the log after any session is replayed to the end, and each
    entry the session added names a handler of the routing table, so none
    is skipped as an invalid command. *)
Theorem replay_completes (reqs : list (Z * Value)) (srv : Server) (tick : nat -> Z) :
  Forall (fun v => array v <> []) (aof srv) ->
  (exists ks', replay (aof (handleConnection reqs srv)) tick = Some ks') /\
  Forall (fun v => is_Some (Handlers (command_of v)))
         (List.filter is_logged_request (map snd reqs)).
Proof.
  intros Hlog. split.
  - apply aof_Read_total. rewrite handleConnection_aof.
    apply Forall_app. split; [exact Hlog |].
    apply Forall_forall. intros v Hv. apply list_elem_of_In, filter_In in Hv as [_ Hv].
    apply (is_logged_request_array v Hv).
  - apply Forall_forall. intros v Hv. apply list_elem_of_In, filter_In in Hv as [_ Hv].
    destruct (is_logged_request_array v Hv) as [_ Hl].
    destruct (logged_handler _ Hl) as [h ->]. eexists. reflexivity.
Qed.

Lemma replay_completes_witness :
  exists ks',
    replay (aof (handleConnection
                   [(1700000000, ArrayV [BulkV "set"; BulkV "k"]);
                    (1700000001, ArrayV [])]
                   (mkServer empty_keyspace []))) (fun _ => 1700000100)
    = Some ks'.
Proof.
  apply (replay_completes
           [(1700000000, ArrayV [BulkV "set"; BulkV "k"]); (1700000001, ArrayV [])]
           (mkServer empty_keyspace []) (fun _ => 1700000100)).
  constructor.
Defined.







(** X21.  The log is written before the handler runs: a request whose name
    is in the logged list and not FLUSHALL, sent with a number of arguments
    its handler rejects, is appended to the log all the same, while the
    client gets an error and the keyspace stays as it was. *)
Theorem failed_command_is_logged (value : Value) (now : Z) (srv : Server) :
  typ value = "array" -> array value <> [] ->
  logged (command_of value) = true -> command_of value <> "FLUSHALL" ->
  accepted_arity (command_of value) (length (tail (array value))) = false ->
  let res := handleConnection_step value now srv in
  is_error (fst (fst res)) /\
  keyspace (snd (fst res)) = keyspace srv /\
  aof (snd (fst res)) = (aof srv ++ [value])%list.
Proof.
  intros Ht Ha Hl Hflush Har res. subst res.
  destruct (logged_handler _ Hl) as [handler Hh].
  rewrite (handleConnection_step_dispatch value now srv handler Ht Ha Hh), Hl.
  cbn [fst snd keyspace aof].
  assert (Hping : command_of value <> "PING").
  { intros Heq. rewrite Heq in Hl. discriminate Hl. }
  destruct (checked_arity _ handler (tail (array value)) now (keyspace srv)
              Hh Hping Hflush Har) as [Herr Hks].
  repeat split; assumption.
Qed.

Lemma failed_command_is_logged_witness :
  aof (snd (fst (handleConnection_step (ArrayV [BulkV "hset"; BulkV "h"]) 1700000000
                   (mkServer empty_keyspace []))))
  = [ArrayV [BulkV "hset"; BulkV "h"]].
Proof.
  apply (failed_command_is_logged (ArrayV [BulkV "hset"; BulkV "h"]) 1700000000
           (mkServer empty_keyspace []));
    [reflexivity | discriminate | reflexivity | discriminate | reflexivity].
Defined.

(** ** The loop of main.go *)




(** ** The handlers before and after expirations *)



(** X24.  Where the rewrite changed GET: on a key without expiry that has a
    string, the current and the earlier GET both answer that string; on a
    key without expiry and without string, the earlier GET answers null and
    the current one an empty bulk.  Neither changes its store. *)
Theorem get_vs_legacy (k : Value) (now : Z) (ks : Keyspace) :
  Expirations ks !! bulk k = None ->
  snd (get [k] now ks) = ks /\
  snd (Legacy.get [k] (store_of ks)) = store_of ks /\
  (forall v, SETs ks !! bulk k = Some v ->
     fst (get [k] now ks) = BulkV v /\
     fst (Legacy.get [k] (store_of ks)) = BulkV v) /\
  (SETs ks !! bulk k = None ->
     fst (get [k] now ks) = BulkV "" /\
     fst (Legacy.get [k] (store_of ks)) = NullV).
Proof.
  intros He. unfold get, checkAndDeleteIfExpired, Legacy.get, store_of.
  cbn [length Nat.eqb negb arg nth Legacy.SETs]. rewrite He. cbn [comma_ok andb].
  destruct (SETs ks !! bulk k) as [s |].
  - split; [reflexivity |]. split; [reflexivity |]. split.
    + intros v0 [= <-]. split; reflexivity.
    + discriminate.
  - destruct (HSETs ks !! bulk k); repeat split; discriminate.

Qed.

Lemma get_vs_legacy_witness :
  fst (get [BulkV "missing"] 1700000000 plain_hash) = BulkV "" /\
  fst (Legacy.get [BulkV "missing"] (store_of plain_hash)) = NullV.
Proof.
  destruct (get_vs_legacy (BulkV "missing") 1700000000 plain_hash eq_refl)
    as (_ & _ & _ & H).
  apply H. reflexivity.
Defined.

(** X25.  Where the rewrite changed HDEL: both versions answer alike, and
    they leave the same hash store as long as the hash is missing or keeps
    a field after the removal.  When the removal takes the last field, the
    earlier HDEL leaves the hash in the store, empty, so that HLEN answers 0
    and HGETALL an empty array, where the current HDEL removes the hash. *)
Theorem hdel_vs_legacy (h f : Value) (now : Z) (ks : Keyspace) :
  fst (hdel [h; f] now ks) = fst (Legacy.hdel [h; f] (store_of ks)) /\
  ((forall m, HSETs ks !! bulk h = Some m -> delete (bulk f) m <> ∅) ->
     store_of (snd (hdel [h; f] now ks)) = snd (Legacy.hdel [h; f] (store_of ks))) /\
  (forall m, HSETs ks !! bulk h = Some m -> delete (bulk f) m = ∅ ->
     let st := snd (Legacy.hdel [h; f] (store_of ks)) in
     Legacy.HSETs st !! bulk h = Some ∅ /\
     HSETs (snd (hdel [h; f] now ks)) !! bulk h = None /\
     Legacy.hlen [h] st = (IntegerV 0, st) /\
     Legacy.hgetall [h] st = (ArrayV [], st)).
Proof.
  rewrite hdel_HSETs. unfold Legacy.hdel, store_of.
  cbn [length Nat.eqb negb arg nth fst snd Legacy.SETs Legacy.HSETs SETs HSETs].
  split; [reflexivity |]. split.
  - intros Hkeep. f_equal.
    destruct (HSETs ks !! bulk h) as [m |] eqn:Hm.
    + destruct (decide (delete (bulk f) m = ∅)) as [He | _];
        [exfalso; exact (Hkeep m eq_refl He) |].
      apply map_eq. intros i. destruct (decide (bulk h = i)) as [<- | Hne].
      * rewrite lookup_insert_eq, lookup_alter_eq, Hm. reflexivity.
      * rewrite lookup_insert_ne, lookup_alter_ne by assumption. reflexivity.
    + apply map_eq. intros i. destruct (decide (bulk h = i)) as [<- | Hne].
      * rewrite lookup_alter_eq, Hm. reflexivity.
      * rewrite lookup_alter_ne by assumption. reflexivity.
  - intros m Hm He. rewrite Hm.
    destruct (decide (delete (bulk f) m = ∅)) as [_ | Hne]; [| contradiction].
    assert (Hl : alter (fun m0 : gmap string string => delete (bulk f) m0)
                   (bulk h) (HSETs ks) !! bulk h = Some ∅).
    { rewrite lookup_alter_eq, Hm. cbn. rewrite He. reflexivity. }
    split; [exact Hl |]. split; [apply lookup_delete_eq |].
    unfold Legacy.hlen, Legacy.hgetall.
    cbn [length Nat.eqb negb arg nth Legacy.HSETs]. rewrite Hl.
    split; reflexivity.
Qed.

Lemma hdel_vs_legacy_witness :
  Legacy.HSETs (snd (Legacy.hdel [BulkV "h"; BulkV "f"] (store_of plain_hash))) !! "h"
  = Some ∅ /\
  HSETs (snd (hdel [BulkV "h"; BulkV "f"] 1700000000 plain_hash)) !! "h" = None.
Proof.
  destruct (hdel_vs_legacy (BulkV "h") (BulkV "f") 1700000000 plain_hash)
    as (_ & _ & H).
  destruct (H {["f" := "v"]}) as (H1 & H2 & _);
    [reflexivity | apply delete_singleton_eq | split; assumption].
Defined.
